(** * A shallow embedding of the 2Q cache of frankegoesdown/2qc

    The repository holds three Go compilation units:
    - package [easy_lru_cache], file with [type lru] (the bounded LRU store
      behind the [LRUCache] interface) -- module [EasyLru] below;
    - package [easy_lru_cache], [cache.go] (the 2Q engine [twoQueueCache])
      -- module [TwoQ];
    - package [internal/lru], [lru.go] (a second, smaller [LRU] type)
      -- module [InternalLru].

    Module [Go] models what the code uses of the Go language and of its
    standard packages [sync], [container/list] and the type [float64]. *)

From Stdlib Require Import ZArith List String Bool Lia.
From Stdlib Require Import SpecFloat.
Import ListNotations.
Open Scope Z_scope.

(* ===================================================================== *)
(** * The Go fragment used by the code *)
(* ===================================================================== *)
Module Go.

(** Dynamic values of type [interface{}]: the nil interface, an [int]
    or a [string] (the kinds of keys and values the repository's
    programs store). Keys are compared as Go compares interface values:
    same dynamic type and same value. *)
Inductive iface : Type :=
| Nil
| Int (n : Z)
| Str (s : string).

Definition iface_eqb (a b : iface) : bool :=
  match a, b with
  | Nil, Nil => true
  | Int n, Int m => Z.eqb n m
  | Str s, Str u => String.eqb s u
  | _, _ => false
  end.

(** A value of type [error]: [None] is the nil error, [Some msg] the
    value built by [errors.New msg] or [fmt.Errorf msg]. *)
Definition error : Type := option string.

(** How a call ends: it returns, the runtime stops the process with a
    fatal error, or the goroutine waits for a lock for ever. *)
Inductive outcome (A : Type) : Type :=
| Return (a : A)
| Fatal (msg : string)
| Blocked.
Arguments Return {A} a.
Arguments Fatal {A} msg.
Arguments Blocked {A}.

Definition bind {A B : Type} (c : outcome A) (k : A -> outcome B) : outcome B :=
  match c with
  | Return a => k a
  | Fatal msg => Fatal msg
  | Blocked => Blocked
  end.

(** ** [sync.RWMutex]

    [w] tells whether a writer holds the mutex, [readerCount] how many
    readers do. [Unlock] on a mutex that is not locked for writing and
    [RUnlock] on one that is not locked for reading are run-time
    errors that stop the process. The state has no queue of waiting
    callers: it describes the calls of one goroutine, where no writer is
    ever pending when [RLock] is called. *)
Record RWMutex : Type := { w : bool; readerCount : nat }.

Definition unlocked : RWMutex := {| w := false; readerCount := 0 |}.

Definition Lock (m : RWMutex) : outcome RWMutex :=
  if w m || negb (Nat.eqb (readerCount m) 0) then Blocked
  else Return {| w := true; readerCount := readerCount m |}.

Definition Unlock (m : RWMutex) : outcome RWMutex :=
  if w m then Return {| w := false; readerCount := readerCount m |}
  else Fatal "sync: Unlock of unlocked RWMutex"%string.

Definition RLock (m : RWMutex) : outcome RWMutex :=
  if w m then Blocked
  else Return {| w := false; readerCount := S (readerCount m) |}.

Definition RUnlock (m : RWMutex) : outcome RWMutex :=
  match readerCount m with
  | O => Fatal "sync: RUnlock of unlocked RWMutex"%string
  | S n => Return {| w := w m; readerCount := n |}
  end.

(** ** [container/list]

    A [list.List] is the sequence of its element values from front to
    back; a [*list.Element] of the list is the position of the element
    in that sequence. *)
Module CList.
Section Ops.
Context {A : Type}.

Definition Len (l : list A) : Z := Z.of_nat (List.length l).

Definition Front (l : list A) : option nat :=
  match l with [] => None | _ :: _ => Some 0%nat end.

Definition Back (l : list A) : option nat :=
  match l with [] => None | _ :: _ => Some (List.length l - 1)%nat end.

Definition Remove (e : nat) (l : list A) : list A :=
  firstn e l ++ skipn (S e) l.

Definition PushFront (x : A) (l : list A) : list A := x :: l.

Definition MoveToFront (e : nat) (l : list A) : list A :=
  match nth_error l e with
  | Some x => x :: Remove e l
  | None => l
  end.

(** [MoveBefore e mark]: nothing when [e] is [mark]; otherwise [e] is
    unlinked and linked again just before [mark]. *)
Definition MoveBefore (e mark : nat) (l : list A) : list A :=
  if Nat.eqb e mark then l
  else match nth_error l e with
       | Some x =>
           let l' := Remove e l in
           let mark' := if Nat.ltb e mark then (mark - 1)%nat else mark in
           firstn mark' l' ++ x :: skipn mark' l'
       | None => l
       end.
End Ops.
End CList.

(** ** [float64]

    IEEE 754 binary64 as specified by [SpecFloat]: 53 bits of
    precision, exponent of the infinities 1024. *)
Definition float64 : Type := spec_float.
Definition prec : Z := 53.
Definition emax : Z := 1024.

(** The conversion [float64(n)] of an [int]: round to nearest even. *)
Definition float64_of_int (n : Z) : float64 := binary_normalize prec emax n 0 false.

(** The constant [num/den] converted to [float64]: the nearest
    representable number (both arguments are small integers, the
    division rounds once). *)
Definition float64_const (num den : Z) : float64 :=
  SFdiv prec emax (float64_of_int num) (float64_of_int den).

Definition float64_mul (x y : float64) : float64 := SFmul prec emax x y.
Definition float64_lt (x y : float64) : bool := SFltb x y.
Definition float64_gt (x y : float64) : bool := SFltb y x.
Definition float64_eq (x y : float64) : bool := SFeqb x y.

Definition int_min : Z := - 2 ^ 63.
Definition int_max : Z := 2 ^ 63 - 1.

(** The integer part of a finite float, the fraction dropped
    (truncation towards zero). *)
Definition trunc (f : float64) : option Z :=
  match f with
  | S754_zero _ => Some 0
  | S754_finite s m e =>
      let a := if 0 <=? e then Zpos m * 2 ^ e else Zpos m / 2 ^ (- e) in
      Some (if s then - a else a)
  | S754_infinity _ | S754_nan => None
  end.

(** The conversion [int(f)] of a [float64] to the 64-bit [int]. When the
    truncated value is not an [int] (NaN, an infinity, out of range)
    the language leaves the result to the implementation: [impl] is
    that choice. *)
Definition int_of_float64 (impl : float64 -> Z) (f : float64) : Z :=
  match trunc f with
  | Some v => if (int_min <=? v) && (v <=? int_max) then v else impl f
  | None => impl f
  end.

(** The choice of the amd64 port (CVTTSD2SQ: the "integer indefinite"
    value). *)
Definition amd64 (_ : float64) : Z := int_min.

End Go.

Import Go.

Declare Scope outcome_scope.
Delimit Scope outcome_scope with outcome.
Notation "x <- c ;; k" := (bind c (fun x => k))
  (at level 61, c at next level, right associativity) : outcome_scope.
Notation "' p <- c ;; k" := (bind c (fun x => let 'p := x in k))
  (at level 61, p pattern, c at next level, right associativity) : outcome_scope.
Open Scope outcome_scope.

(** [Key] and [Value] are both [interface{}]. *)
Definition Key : Type := iface.
Definition Value : Type := iface.

(** [lruItem]: the value held by a list element (the field [expiration]
    of [internal/lru] is never read or written). *)
Record lruItem : Type := { key : Key; value : Value }.

(** The map [cache] of both LRU types sends a key to the list element
    that holds it. It is written together with the list ([Put] adds the
    pushed element under its key, [removeElement] deletes the key of the
    removed element, [Purge] empties both), so a lookup [cache[k]] is the
    position of the element of the list whose item has key [k]. *)
Fixpoint index_of (k : Key) (l : list lruItem) : option nat :=
  match l with
  | [] => None
  | it :: l' => if iface_eqb (key it) k then Some 0%nat
                else option_map S (index_of k l')
  end.

(** [item.value = v] through the pointer held by element [e]. *)
Fixpoint assign_value (e : nat) (v : Value) (l : list lruItem) : list lruItem :=
  match l, e with
  | [], _ => []
  | it :: l', O => {| key := key it; value := v |} :: l'
  | it :: l', S e' => it :: assign_value e' v l'
  end.

(** The value of the item held by element [e], the zero value when there is no
    such element. *)
Definition value_at (e : nat) (l : list lruItem) : Value :=
  match nth_error l e with Some it => value it | None => Nil end.

(* ===================================================================== *)
(** * Package [internal/lru]: the type [LRU] *)
(* ===================================================================== *)
Module InternalLru.

(** [list_] is the field [list] (front of the list first); the field
    [cache] is the function [cache] below. *)
Record LRU : Type := { capacity : Z; list_ : list lruItem; mu : RWMutex }.

Definition cache (l : LRU) (k : Key) : option nat := index_of k (list_ l).

Definition with_list (l : LRU) (items : list lruItem) : LRU :=
  {| capacity := capacity l; list_ := items; mu := mu l |}.

Definition with_mu (l : LRU) (m : RWMutex) : LRU :=
  {| capacity := capacity l; list_ := list_ l; mu := m |}.

(** [removeElement]: [l.list.Remove(e)], then the key of the removed item
    is deleted from [cache]. *)
Definition removeElement (l : LRU) (e : nat) : LRU :=
  with_list l (CList.Remove e (list_ l)).

Definition removeOldest (l : LRU) : LRU :=
  match CList.Back (list_ l) with
  | Some ent => removeElement l ent
  | None => l
  end.

(** [Get] takes no lock in this package. *)
Definition Get (l : LRU) (k : Key) : (Value * error) * LRU :=
  match cache l k with
  | None => ((Nil, Some "not found in cache"%string), l)
  | Some element =>
      let items :=
        match CList.Front (list_ l) with
        | Some mark => CList.MoveBefore element mark (list_ l)
        | None => list_ l
        end in
      ((value_at element (list_ l), None), with_list l items)
  end.

(** [Put]: [l.mu.Lock()], [defer l.mu.Unlock()], then the body. *)
Definition Put (l : LRU) (k : Key) (v : Value) : outcome (error * LRU) :=
  m <- Lock (mu l) ;;
  let l := with_mu l m in
  let l :=
    match cache l k with
    | Some it =>
        with_list l (assign_value 0 v (CList.MoveToFront it (list_ l)))
    | None =>
        let l := if CList.Len (list_ l) >=? capacity l then removeOldest l else l in
        with_list l (CList.PushFront {| key := k; value := v |} (list_ l))
    end in
  m <- Unlock (mu l) ;;
  Return (None, with_mu l m).

Definition NewLRU (capacity : Z) : option LRU * error :=
  if capacity <=? 0 then (None, Some "must provide a positive size"%string)
  else (Some {| capacity := capacity; list_ := []; mu := unlocked |}, None).

End InternalLru.

(* ===================================================================== *)
(** * Package [easy_lru_cache]: the type [lru] behind [LRUCache] *)
(* ===================================================================== *)
Module EasyLru.

(** [list_] is the field [list] (front of the list first); the field
    [cache] is the function [cache] below. *)
Record lru : Type := { capacity : Z; list_ : list lruItem; lock : RWMutex }.

Definition cache (l : lru) (k : Key) : option nat := index_of k (list_ l).

Definition with_list (l : lru) (items : list lruItem) : lru :=
  {| capacity := capacity l; list_ := items; lock := lock l |}.

Definition with_lock (l : lru) (m : RWMutex) : lru :=
  {| capacity := capacity l; list_ := list_ l; lock := m |}.

Definition removeElement (l : lru) (e : nat) : lru :=
  with_list l (CList.Remove e (list_ l)).

Definition removeOldest (l : lru) : lru :=
  match CList.Back (list_ l) with
  | Some ent => removeElement l ent
  | None => l
  end.

(** [Get]: [l.lock.RLock()], [defer l.lock.Unlock()], then the body. The
    deferred call is [Unlock], not [RUnlock]; it runs on both return
    paths. *)
Definition Get (l : lru) (k : Key) : outcome ((Value * error) * lru) :=
  m <- RLock (lock l) ;;
  let l := with_lock l m in
  let '(res, l) :=
    match cache l k with
    | None => ((Nil, Some "not found in cache"%string), l)
    | Some element =>
        let items :=
          match CList.Front (list_ l) with
          | Some mark => CList.MoveBefore element mark (list_ l)
          | None => list_ l
          end in
        ((value_at element (list_ l), None), with_list l items)
    end in
  m <- Unlock (lock l) ;;
  Return (res, with_lock l m).

(** [Put]: [l.lock.Lock()], [defer l.lock.Unlock()], then the body. *)
Definition Put (l : lru) (k : Key) (v : Value) : outcome (error * lru) :=
  m <- Lock (lock l) ;;
  let l := with_lock l m in
  let l :=
    match cache l k with
    | Some it =>
        with_list l (assign_value 0 v (CList.MoveToFront it (list_ l)))
    | None =>
        let l := if CList.Len (list_ l) >=? capacity l then removeOldest l else l in
        with_list l (CList.PushFront {| key := k; value := v |} (list_ l))
    end in
  m <- Unlock (lock l) ;;
  Return (None, with_lock l m).

(** [Peek]: the results [value] and [ok] are named and start at their
    zero values. The [ok] of [if element, ok := l.cache[key]; ok] is a new
    variable of the [if] statement: the result [ok] is never assigned. *)
Definition Peek (l : lru) (k : Key) : Value * bool :=
  let value := Nil in
  let ok := false in
  let value :=
    match cache l k with
    | Some element => value_at element (list_ l)
    | None => value
    end in
  (value, ok).

(** [Contains] assigns the result [ok] with [=]. *)
Definition Contains (l : lru) (k : Key) : bool :=
  match cache l k with Some _ => true | None => false end.

(** [Remove]: as in [Peek], the [ok] tested by the [if] statement is its
    own variable; the named result [ok] keeps its zero value. *)
Definition Remove (l : lru) (k : Key) : bool * lru :=
  let ok := false in
  let l :=
    match cache l k with
    | Some element => removeElement l element
    | None => l
    end in
  (ok, l).

Definition Len (l : lru) : Z := CList.Len (list_ l).

Definition RemoveOldest (l : lru) : error * lru :=
  match CList.Back (list_ l) with
  | Some ent => (None, removeElement l ent)
  | None => (None, l)
  end.

(** [Keys]: a slice of [len(l.cache)] entries filled from the back of the
    list to its front. *)
Definition Keys (l : lru) : list Key := rev (map key (list_ l)).

(** [Purge]: every key is deleted from [cache] and the list is
    re-initialised. *)
Definition Purge (l : lru) : lru := with_list l [].

Definition NewLRU (capacity : Z) : option lru * error :=
  if capacity <=? 0 then (None, Some "must provide a positive size"%string)
  else (Some {| capacity := capacity; list_ := []; lock := unlocked |}, None).

End EasyLru.

(* ===================================================================== *)
(** * Package [easy_lru_cache], [cache.go]: the 2Q engine *)
(* ===================================================================== *)
Module TwoQ.

(** [Default2QRecentRatio = 0.20] and [Default2QGhostEntries = 0.80]. *)
Definition Default2QRecentRatio : float64 := float64_const 20 100.
Definition Default2QGhostEntries : float64 := float64_const 80 100.

(** The three stores are [LRUCache] interface values; [New2QParams] only
    ever stores [*lru] in them. The field [expiration] is never read or
    written. *)
Record twoQueueCache : Type := {
  size : Z;
  recentSize : Z;
  recent : EasyLru.lru;
  frequent : EasyLru.lru;
  recentEvict : EasyLru.lru;
  lock : RWMutex
}.

Definition with_recent (t : twoQueueCache) (r : EasyLru.lru) : twoQueueCache :=
  {| size := size t; recentSize := recentSize t; recent := r;
     frequent := frequent t; recentEvict := recentEvict t; lock := lock t |}.

Definition with_frequent (t : twoQueueCache) (f : EasyLru.lru) : twoQueueCache :=
  {| size := size t; recentSize := recentSize t; recent := recent t;
     frequent := f; recentEvict := recentEvict t; lock := lock t |}.

Definition with_recentEvict (t : twoQueueCache) (g : EasyLru.lru) : twoQueueCache :=
  {| size := size t; recentSize := recentSize t; recent := recent t;
     frequent := frequent t; recentEvict := g; lock := lock t |}.

Definition with_lock (t : twoQueueCache) (m : RWMutex) : twoQueueCache :=
  {| size := size t; recentSize := recentSize t; recent := recent t;
     frequent := frequent t; recentEvict := recentEvict t; lock := m |}.

(** [t.lock.Lock(); defer t.lock.Unlock()] around a body. *)
Definition locked {A : Type} (t : twoQueueCache)
    (body : twoQueueCache -> outcome (A * twoQueueCache)) : outcome (A * twoQueueCache) :=
  m <- Lock (lock t) ;;
  '(a, t) <- body (with_lock t m) ;;
  m <- Unlock (lock t) ;;
  Return (a, with_lock t m).

(** [t.lock.RLock(); defer t.lock.RUnlock()] around a body. *)
Definition rlocked {A : Type} (t : twoQueueCache)
    (body : twoQueueCache -> outcome (A * twoQueueCache)) : outcome (A * twoQueueCache) :=
  m <- RLock (lock t) ;;
  '(a, t) <- body (with_lock t m) ;;
  m <- RUnlock (lock t) ;;
  Return (a, with_lock t m).

Section Construction.
(** What [int(f)] yields when [f] has no [int] value. *)
Variable impl : float64 -> Z.

Definition New2QParams (size : Z) (recentRatio ghostRatio : float64)
  : option twoQueueCache * error :=
  if size <=? 0 then (None, Some "invalid size"%string)
  else if float64_lt recentRatio (float64_const 0 1)
          || float64_gt recentRatio (float64_const 1 1)
  then (None, Some "invalid recent ratio"%string)
  else if float64_lt ghostRatio (float64_const 0 1)
          || float64_gt ghostRatio (float64_const 1 1)
  then (None, Some "invalid ghost ratio"%string)
  else
    let recentSize := int_of_float64 impl (float64_mul (float64_of_int size) recentRatio) in
    let evictSize := int_of_float64 impl (float64_mul (float64_of_int size) ghostRatio) in
    (* [NewLRU] returns a store or an error, never neither: the cases
       [(None, None)] below are not reached. *)
    match EasyLru.NewLRU size with
    | (_, Some e) => (None, Some e)
    | (None, None) => (None, None)
    | (Some recent, None) =>
        match EasyLru.NewLRU size with
        | (_, Some e) => (None, Some e)
        | (None, None) => (None, None)
        | (Some frequent, None) =>
            match EasyLru.NewLRU evictSize with
            | (_, Some e) => (None, Some e)
            | (None, None) => (None, None)
            | (Some recentEvict, None) =>
                (Some {| size := size; recentSize := recentSize;
                         recent := recent; frequent := frequent;
                         recentEvict := recentEvict; lock := unlocked |},
                 None)
            end
        end
    end.

Definition New2Q (size : Z) (recentRation ghostEntries : float64)
  : option twoQueueCache * error :=
  let recentRation :=
    if float64_eq recentRation (float64_const 0 1) then Default2QRecentRatio
    else recentRation in
  let ghostEntries :=
    if float64_eq ghostEntries (float64_const 0 1) then Default2QGhostEntries
    else ghostEntries in
  New2QParams size recentRation ghostEntries.
End Construction.

(** [Get] takes no lock of the engine. The [value] of
    [if value, ok := t.recent.Peek(key); ok] is a new variable of the
    [if] statement; the result [value] keeps what [t.frequent.Get]
    returned. *)
Definition Get (t : twoQueueCache) (k : Key)
  : outcome ((Value * error) * twoQueueCache) :=
  '((value, err), f) <- EasyLru.Get (frequent t) k ;;
  let t := with_frequent t f in
  match err with
  | None => Return ((value, err), t)
  | Some _ =>
      let '(value', ok) := EasyLru.Peek (recent t) k in
      if ok then
        let '(_, r) := EasyLru.Remove (recent t) k in
        let t := with_recent t r in
        '(err, f) <- EasyLru.Put (frequent t) k value' ;;
        Return ((value, err), with_frequent t f)
      else Return ((value, err), t)
  end.

Definition ensureSpace (t : twoQueueCache) (recentEvict : bool) : error * twoQueueCache :=
  let recentLen := EasyLru.Len (recent t) in
  let freqLen := EasyLru.Len (frequent t) in
  if recentLen + freqLen <? size t then (None, t)
  else if (recentLen >? 0)
          && ((recentLen >? recentSize t)
              || ((recentLen =? recentSize t) && negb recentEvict))
  then let '(err, r) := EasyLru.RemoveOldest (recent t) in (err, with_recent t r)
  else let '(err, f) := EasyLru.RemoveOldest (frequent t) in (err, with_frequent t f).

Definition Add (t : twoQueueCache) (k : Key) (v : Value) : outcome (error * twoQueueCache) :=
  locked t (fun t =>
    if EasyLru.Contains (frequent t) k then
      '(err, f) <- EasyLru.Put (frequent t) k v ;;
      Return (err, with_frequent t f)
    else if EasyLru.Contains (recent t) k then
      let '(_, r) := EasyLru.Remove (recent t) k in
      let t := with_recent t r in
      '(err, f) <- EasyLru.Put (frequent t) k v ;;
      Return (err, with_frequent t f)
    else if EasyLru.Contains (recentEvict t) k then
      let '(err, t) := ensureSpace t true in
      match err with
      | Some _ => Return (err, t)
      | None =>
          let '(_, g) := EasyLru.Remove (recentEvict t) k in
          let t := with_recentEvict t g in
          '(err, f) <- EasyLru.Put (frequent t) k v ;;
          Return (err, with_frequent t f)
      end
    else
      let '(err, t) := ensureSpace t false in
      match err with
      | Some _ => Return (err, t)
      | None =>
          '(err, r) <- EasyLru.Put (recent t) k v ;;
          Return (err, with_recent t r)
      end).

Definition Len (t : twoQueueCache) : outcome (Z * twoQueueCache) :=
  rlocked t (fun t => Return (EasyLru.Len (recent t) + EasyLru.Len (frequent t), t)).

Definition Keys (t : twoQueueCache) : outcome (list Key * twoQueueCache) :=
  rlocked t (fun t =>
    let k1 := EasyLru.Keys (frequent t) in
    let k2 := EasyLru.Keys (recent t) in
    Return (k1 ++ k2, t)).

Definition Remove (t : twoQueueCache) (k : Key) : outcome (unit * twoQueueCache) :=
  locked t (fun t =>
    let '(ok, f) := EasyLru.Remove (frequent t) k in
    let t := with_frequent t f in
    if ok then Return (tt, t)
    else
      let '(ok, r) := EasyLru.Remove (recent t) k in
      let t := with_recent t r in
      if ok then Return (tt, t)
      else
        let '(ok, g) := EasyLru.Remove (recentEvict t) k in
        let t := with_recentEvict t g in
        Return (tt, t)).

Definition Purge (t : twoQueueCache) : outcome (unit * twoQueueCache) :=
  locked t (fun t =>
    let t := with_recent t (EasyLru.Purge (recent t)) in
    let t := with_frequent t (EasyLru.Purge (frequent t)) in
    let t := with_recentEvict t (EasyLru.Purge (recentEvict t)) in
    Return (tt, t)).

Definition Contains (t : twoQueueCache) (k : Key) : outcome (bool * twoQueueCache) :=
  rlocked t (fun t =>
    Return (EasyLru.Contains (frequent t) k || EasyLru.Contains (recent t) k, t)).

Definition Peek (t : twoQueueCache) (k : Key) : outcome ((Value * bool) * twoQueueCache) :=
  rlocked t (fun t =>
    let '(val, ok) := EasyLru.Peek (frequent t) k in
    if ok then Return ((val, ok), t)
    else Return (EasyLru.Peek (recent t) k, t)).

(** ** Sequences of calls of the exported methods *)
Inductive call : Type :=
| CAdd (k : Key) (v : Value)
| CGet (k : Key)
| CRemove (k : Key)
| CPurge
| CLen
| CKeys
| CContains (k : Key)
| CPeek (k : Key).

Definition exec (t : twoQueueCache) (c : call) : outcome twoQueueCache :=
  match c with
  | CAdd k v => '(_, t) <- Add t k v ;; Return t
  | CGet k => '(_, t) <- Get t k ;; Return t
  | CRemove k => '(_, t) <- Remove t k ;; Return t
  | CPurge => '(_, t) <- Purge t ;; Return t
  | CLen => '(_, t) <- Len t ;; Return t
  | CKeys => '(_, t) <- Keys t ;; Return t
  | CContains k => '(_, t) <- Contains t k ;; Return t
  | CPeek k => '(_, t) <- Peek t k ;; Return t
  end.

Fixpoint run (t : twoQueueCache) (cs : list call) : outcome twoQueueCache :=
  match cs with
  | [] => Return t
  | c :: cs' => t' <- exec t c ;; run t' cs'
  end.

(** A key is in a store when the store's [cache] map has it. *)
Definition in_store (l : EasyLru.lru) (k : Key) : Prop := EasyLru.Contains l k = true.

Definition is_get (c : call) : bool :=
  match c with CGet _ => true | _ => false end.

End TwoQ.

Import TwoQ.

(* ===================================================================== *)
(** * Predicates on the state of the engine *)
(* ===================================================================== *)

(** The keys of the items of a store, most recently used first. *)
Definition keys_of (l : EasyLru.lru) : list Key := map key (EasyLru.list_ l).

(** In how many of the three stores a key is present. *)
Definition stores_holding (t : twoQueueCache) (k : Key) : nat :=
  ((if EasyLru.Contains (recent t) k then 1 else 0)
   + (if EasyLru.Contains (frequent t) k then 1 else 0)
   + (if EasyLru.Contains (recentEvict t) k then 1 else 0))%nat.

(** What every call of an exported method preserves. *)
Record Inv (sz : Z) (t : twoQueueCache) : Prop := {
  inv_size : size t = sz;
  inv_pos : 0 < sz;
  inv_cap_recent : EasyLru.capacity (recent t) = sz;
  inv_cap_frequent : EasyLru.capacity (frequent t) = sz;
  inv_lock : lock t = unlocked;
  inv_lock_recent : EasyLru.lock (recent t) = unlocked;
  inv_lock_frequent : EasyLru.lock (frequent t) = unlocked;
  inv_lock_ghost : EasyLru.lock (recentEvict t) = unlocked;
  inv_ghost : EasyLru.list_ (recentEvict t) = [];
  inv_nodup_recent : NoDup (keys_of (recent t));
  inv_nodup_frequent : NoDup (keys_of (frequent t));
  inv_disjoint : forall k, In k (keys_of (recent t)) -> ~ In k (keys_of (frequent t));
  inv_budget : EasyLru.Len (recent t) + EasyLru.Len (frequent t) <= sz
}.

(** [putAll l kvs]: the calls [l.Put(k, v)] for the pairs of [kvs] in
    order. *)
Fixpoint putAll (l : EasyLru.lru) (kvs : list (Key * Value)) : outcome EasyLru.lru :=
  match kvs with
  | [] => Return l
  | (k, v) :: kvs' => '(_, l') <- EasyLru.Put l k v ;; putAll l' kvs'
  end.

(** The item that [Put] allocates for a pair. *)
Definition item_of (kv : Key * Value) : lruItem := {| key := fst kv; value := snd kv |}.

(** ** The values used by the scenarios *)

Definition zero : float64 := float64_const 0 1.
Definition one : float64 := float64_const 1 1.
Definition half : float64 := float64_const 1 2.

(** The test that [New2QParams] applies to each ratio:
    [ratio < 0.0 || ratio > 1.0]. *)
Definition invalid_ratio (r : float64) : bool :=
  float64_lt r (float64_const 0 1) || float64_gt r (float64_const 1 1).

(** The engine's mutex while another caller holds it for writing. *)
Definition write_held : RWMutex := {| w := true; readerCount := 0 |}.

(** The cache built by [New2Q(2, 0.0, 0.0)]. *)
Definition cache_2 : twoQueueCache :=
  {| size := 2; recentSize := 0;
     recent := {| EasyLru.capacity := 2; EasyLru.list_ := []; EasyLru.lock := unlocked |};
     frequent := {| EasyLru.capacity := 2; EasyLru.list_ := []; EasyLru.lock := unlocked |};
     recentEvict := {| EasyLru.capacity := 1; EasyLru.list_ := []; EasyLru.lock := unlocked |};
     lock := unlocked |}.

(** The cache built by [New2QParams(2, 0.5, 0.5)]. *)
Definition cache_2_half : twoQueueCache :=
  {| size := 2; recentSize := 1;
     recent := {| EasyLru.capacity := 2; EasyLru.list_ := []; EasyLru.lock := unlocked |};
     frequent := {| EasyLru.capacity := 2; EasyLru.list_ := []; EasyLru.lock := unlocked |};
     recentEvict := {| EasyLru.capacity := 1; EasyLru.list_ := []; EasyLru.lock := unlocked |};
     lock := unlocked |}.

(** Three sequences of calls on such a cache. *)
Definition calls_mixed : list call :=
  [CAdd (Int 1) (Str "a"); CAdd (Int 2) (Str "b"); CAdd (Int 3) (Str "c");
   CAdd (Int 2) (Str "d"); CLen; CRemove (Int 3); CAdd (Int 4) (Str "e")].

Definition calls_promote : list call :=
  [CAdd (Int 1) (Str "a"); CAdd (Int 2) (Str "b"); CAdd (Int 1) (Str "c");
   CAdd (Int 3) (Str "d"); CKeys].

Definition calls_evict : list call :=
  [CAdd (Int 1) (Str "a"); CAdd (Int 2) (Str "b"); CAdd (Int 3) (Str "c");
   CAdd (Int 1) (Str "d"); CRemove (Int 2); CPurge; CAdd (Int 1) (Str "e")].

(** The store built by [NewLRU(2)] of [easy_lru_cache]. *)
Definition store_2 : EasyLru.lru :=
  {| EasyLru.capacity := 2; EasyLru.list_ := []; EasyLru.lock := unlocked |}.

(** The store built by [lru.NewLRU(2)] of [internal/lru]. *)
Definition internal_store_2 : InternalLru.LRU :=
  {| InternalLru.capacity := 2; InternalLru.list_ := []; InternalLru.mu := unlocked |}.

(** The three [Put] calls of the program of [internal/lru]'s client. *)
Definition internal_puts (l : InternalLru.LRU) : outcome InternalLru.LRU :=
  '(_, l) <- InternalLru.Put l (Int 10) (Int 20) ;;
  '(_, l) <- InternalLru.Put l (Int 30) (Int 40) ;;
  '(_, l) <- InternalLru.Put l (Str "50") (Int 20) ;;
  Return l.

(* ===================================================================== *)
(** * Observations and call sequences used by the further properties *)
(* ===================================================================== *)

(** The value stored under a key in a list of items: that of the first
    item with this key. *)
Fixpoint lookup (k : Key) (l : list lruItem) : option Value :=
  match l with
  | [] => None
  | it :: l' => if iface_eqb (key it) k then Some (value it) else lookup k l'
  end.

(** The last [n] elements of a list. *)
Definition keep {A : Type} (n : nat) (l : list A) : list A :=
  skipn (List.length l - n) l.

(** The calls of the methods of [lru] (package [easy_lru_cache]). *)
Inductive store_call : Type :=
| SGet (k : Key)
| SPut (k : Key) (v : Value)
| SPeek (k : Key)
| SContains (k : Key)
| SRemove (k : Key)
| SLen
| SRemoveOldest
| SKeys
| SPurge.

Definition store_exec (l : EasyLru.lru) (c : store_call) : outcome EasyLru.lru :=
  match c with
  | SGet k => '(_, l) <- EasyLru.Get l k ;; Return l
  | SPut k v => '(_, l) <- EasyLru.Put l k v ;; Return l
  | SPeek k => let '(_, _) := EasyLru.Peek l k in Return l
  | SContains k => let _ := EasyLru.Contains l k in Return l
  | SRemove k => let '(_, l) := EasyLru.Remove l k in Return l
  | SLen => let _ := EasyLru.Len l in Return l
  | SRemoveOldest => let '(_, l) := EasyLru.RemoveOldest l in Return l
  | SKeys => let _ := EasyLru.Keys l in Return l
  | SPurge => Return (EasyLru.Purge l)
  end.

Fixpoint store_run (l : EasyLru.lru) (cs : list store_call) : outcome EasyLru.lru :=
  match cs with
  | [] => Return l
  | c :: cs' => l' <- store_exec l c ;; store_run l' cs'
  end.

Definition is_store_get (c : store_call) : bool :=
  match c with SGet _ => true | _ => false end.

(** The calls of the two methods of [LRU] (package [internal/lru]). *)
Inductive internal_call : Type :=
| IGet (k : Key)
| IPut (k : Key) (v : Value).

Definition internal_exec (l : InternalLru.LRU) (c : internal_call) : outcome InternalLru.LRU :=
  match c with
  | IGet k => let '(_, l) := InternalLru.Get l k in Return l
  | IPut k v => '(_, l) <- InternalLru.Put l k v ;; Return l
  end.

Fixpoint internal_run (l : InternalLru.LRU) (cs : list internal_call) : outcome InternalLru.LRU :=
  match cs with
  | [] => Return l
  | c :: cs' => l' <- internal_exec l c ;; internal_run l' cs'
  end.

(** The same store seen as a value of the other package's type: the two
    structs have the same three fields ([mu] is [lock]). *)
Definition as_lru (l : InternalLru.LRU) : EasyLru.lru :=
  {| EasyLru.capacity := InternalLru.capacity l;
     EasyLru.list_ := InternalLru.list_ l;
     EasyLru.lock := InternalLru.mu l |}.

Definition as_LRU (l : EasyLru.lru) : InternalLru.LRU :=
  {| InternalLru.capacity := EasyLru.capacity l;
     InternalLru.list_ := EasyLru.list_ l;
     InternalLru.mu := EasyLru.lock l |}.

(** What the engine's [Len] and [Contains] compute on a state. *)
Definition engine_len (t : twoQueueCache) : Z :=
  EasyLru.Len (recent t) + EasyLru.Len (frequent t).

Definition engine_holds (t : twoQueueCache) (k : Key) : bool :=
  EasyLru.Contains (frequent t) k || EasyLru.Contains (recent t) k.

(** The calls [Add(k, v)] for the pairs of a list, in order. *)
Definition adds (kvs : list (Key * Value)) : list call :=
  map (fun kv => CAdd (fst kv) (snd kv)) kvs.

(** A store of capacity 2 that holds the keys 1 (older) and 2. *)
Definition store_12 : EasyLru.lru :=
  {| EasyLru.capacity := 2;
     EasyLru.list_ := [{| key := Int 2; value := Str "b" |};
                       {| key := Int 1; value := Str "a" |}];
     EasyLru.lock := unlocked |}.

Definition internal_store_12 : InternalLru.LRU := as_LRU store_12.

(** The state of the engine after a sequence of calls that returns. *)
Definition state_after (t : twoQueueCache) (cs : list call) : twoQueueCache :=
  match run t cs with
  | Return t' => t'
  | _ => t
  end.

(* ===================================================================== *)
(** * Lists, keys and positions *)
(* ===================================================================== *)

Lemma iface_eqb_eq (a b : iface) : iface_eqb a b = true <-> a = b.
Proof.
  destruct a, b; simpl; split; intro H; try discriminate; try reflexivity.
  - apply Z.eqb_eq in H. now subst.
  - injection H as ->. apply Z.eqb_refl.
  - apply String.eqb_eq in H. now subst.
  - injection H as ->. apply String.eqb_refl.
Qed.

Lemma iface_eqb_refl (a : iface) : iface_eqb a a = true.
Proof. now apply iface_eqb_eq. Qed.

Lemma index_of_Some (k : Key) (l : list lruItem) (i : nat) :
  index_of k l = Some i ->
  exists it, nth_error l i = Some it /\ key it = k.
Proof.
  revert i. induction l as [|x l IH]; intros i H; simpl in H.
  - discriminate.
  - destruct (iface_eqb (key x) k) eqn:E.
    + injection H as <-. exists x. split; [reflexivity|]. now apply iface_eqb_eq.
    + destruct (index_of k l) as [j|]; simpl in H; [|discriminate].
      injection H as <-. destruct (IH j eq_refl) as [it [Hn Hk]].
      exists it. split; assumption.
Qed.

Lemma index_of_None (k : Key) (l : list lruItem) :
  index_of k l = None <-> ~ In k (map key l).
Proof.
  induction l as [|x l IH]; simpl.
  - split; [intros _ []|reflexivity].
  - destruct (iface_eqb (key x) k) eqn:E.
    + apply iface_eqb_eq in E. split; [discriminate|]. intros H. exfalso. apply H. now left.
    + assert (key x <> k) as Hne.
      { intros Heq. apply iface_eqb_eq in Heq. congruence. }
      destruct (index_of k l) as [j|]; simpl.
      * split; [discriminate|]. intros H.
        assert (Some j = None) as Habs by (apply IH; intro; apply H; now right).
        discriminate.
      * split; [|reflexivity]. intros _ [H|H]; [congruence|].
        now apply (proj1 IH).
Qed.

Lemma index_of_lt (k : Key) (l : list lruItem) (i : nat) :
  index_of k l = Some i -> (i < List.length l)%nat.
Proof.
  intros H. destruct (index_of_Some _ _ _ H) as [it [Hn _]].
  apply nth_error_Some. congruence.
Qed.

Section RemoveFacts.
Context {A : Type}.

Lemma Remove_nil (i : nat) : CList.Remove i (@nil A) = [].
Proof. unfold CList.Remove. now rewrite firstn_nil, skipn_nil. Qed.

Lemma Remove_O (x : A) (l : list A) : CList.Remove 0 (x :: l) = l.
Proof. reflexivity. Qed.

Lemma Remove_S (i : nat) (x : A) (l : list A) :
  CList.Remove (S i) (x :: l) = x :: CList.Remove i l.
Proof. reflexivity. Qed.

Lemma Remove_length (i : nat) (l : list A) :
  (i < List.length l)%nat ->
  List.length (CList.Remove i l) = (List.length l - 1)%nat.
Proof.
  revert i. induction l as [|x l IH]; intros i Hi; simpl in Hi; [lia|].
  destruct i as [|i].
  - rewrite Remove_O. simpl. lia.
  - rewrite Remove_S. simpl. rewrite IH by lia. lia.
Qed.

Lemma Remove_last (l : list A) :
  CList.Remove (List.length l - 1) l = removelast l.
Proof.
  induction l as [|x l IH]; [reflexivity|].
  destruct l as [|y l]; [reflexivity|].
  replace (List.length (x :: y :: l) - 1)%nat with (S (List.length (y :: l) - 1))
    by (simpl; lia).
  rewrite Remove_S, IH. reflexivity.
Qed.

Lemma Remove_In {B : Type} (f : A -> B) (i : nat) (l : list A) (b : B) :
  In b (map f (CList.Remove i l)) -> In b (map f l).
Proof.
  revert i. induction l as [|x l IH]; intros i H.
  - now rewrite Remove_nil in H.
  - destruct i as [|i].
    + rewrite Remove_O in H. now right.
    + rewrite Remove_S in H. simpl in H. destruct H as [H|H]; [now left|].
      right. eapply IH. eassumption.
Qed.

Lemma Remove_NoDup {B : Type} (f : A -> B) (i : nat) (l : list A) :
  NoDup (map f l) -> NoDup (map f (CList.Remove i l)).
Proof.
  revert i. induction l as [|x l IH]; intros i H.
  - now rewrite Remove_nil.
  - inversion H as [|? ? Hx Hl]; subst. destruct i as [|i].
    + now rewrite Remove_O.
    + rewrite Remove_S. simpl. constructor; [|now apply IH].
      intros Hin. apply Hx. eapply Remove_In. eassumption.
Qed.

Lemma Remove_absent {B : Type} (f : A -> B) (i : nat) (l : list A) (x : A) :
  NoDup (map f l) -> nth_error l i = Some x ->
  ~ In (f x) (map f (CList.Remove i l)).
Proof.
  revert i. induction l as [|y l IH]; intros i H Hn.
  - destruct i; discriminate.
  - inversion H as [|? ? Hy Hl]; subst. destruct i as [|i]; simpl in Hn.
    + injection Hn as ->. now rewrite Remove_O.
    + rewrite Remove_S. simpl. intros [Heq|Hin].
      * apply Hy. rewrite Heq. apply in_map. eapply nth_error_In. eassumption.
      * now apply (IH i Hl Hn).
Qed.

Lemma Remove_keeps {B : Type} (f : A -> B) (i : nat) (l : list A) (x : A) (b : B) :
  nth_error l i = Some x -> In b (map f l) -> b <> f x ->
  In b (map f (CList.Remove i l)).
Proof.
  revert i. induction l as [|y l IH]; intros i Hn Hin Hne.
  - destruct i; discriminate.
  - destruct i as [|i]; simpl in Hn.
    + injection Hn as ->. rewrite Remove_O. destruct Hin as [Heq|Hin]; [congruence|assumption].
    + rewrite Remove_S. simpl. destruct Hin as [Heq|Hin]; [now left|].
      right. now apply (IH i).
Qed.
End RemoveFacts.

(** The keys after [MoveToFront] and an assignment to the value of the
    front item. *)
Lemma keys_touch (i : nat) (v : Value) (l : list lruItem) (it : lruItem) :
  nth_error l i = Some it ->
  map key (assign_value 0 v (CList.MoveToFront i l))
  = key it :: map key (CList.Remove i l).
Proof. intros H. unfold CList.MoveToFront. rewrite H. reflexivity. Qed.

Lemma length_touch (i : nat) (v : Value) (l : list lruItem) :
  (i < List.length l)%nat ->
  List.length (assign_value 0 v (CList.MoveToFront i l)) = List.length l.
Proof.
  intros H. unfold CList.MoveToFront.
  destruct (nth_error l i) as [it|] eqn:E.
  - simpl. rewrite Remove_length by assumption. lia.
  - apply nth_error_None in E. lia.
Qed.

(* ===================================================================== *)
(** * The bounded LRU store of [easy_lru_cache] *)
(* ===================================================================== *)

Lemma Contains_In (l : EasyLru.lru) (k : Key) :
  EasyLru.Contains l k = true <-> In k (keys_of l).
Proof.
  unfold EasyLru.Contains, EasyLru.cache, keys_of.
  destruct (index_of k (EasyLru.list_ l)) as [i|] eqn:E.
  - split; [intros _|reflexivity].
    destruct (index_of_Some _ _ _ E) as [it [Hn <-]].
    apply in_map. eapply nth_error_In. eassumption.
  - split; [discriminate|]. intros H. apply index_of_None in E. contradiction.
Qed.

Lemma Contains_false (l : EasyLru.lru) (k : Key) :
  EasyLru.Contains l k = false <-> ~ In k (keys_of l).
Proof.
  rewrite <- Contains_In. destruct (EasyLru.Contains l k); split; congruence.
Qed.

Lemma with_lock_unlocked (l : EasyLru.lru) :
  EasyLru.lock l = unlocked ->
  EasyLru.with_lock l unlocked = l.
Proof. destruct l; simpl; intros ->; reflexivity. Qed.

(** [Put] of a key the store does not hold. *)
Lemma Put_new (l : EasyLru.lru) (k : Key) (v : Value) :
  EasyLru.lock l = unlocked ->
  EasyLru.cache l k = None ->
  EasyLru.Put l k v =
  Return (None,
          EasyLru.with_list l
            ({| key := k; value := v |}
             :: (if CList.Len (EasyLru.list_ l) >=? EasyLru.capacity l
                 then removelast (EasyLru.list_ l) else EasyLru.list_ l))).
Proof.
  intros Hl Hc. destruct l as [c items m]. simpl in *. subst m.
  unfold EasyLru.Put, EasyLru.cache in *. simpl in *. rewrite Hc.
  destruct (CList.Len items >=? c); simpl; [|reflexivity].
  unfold EasyLru.removeOldest, EasyLru.removeElement, EasyLru.with_list. simpl.
  destruct items as [|x items]; [reflexivity|].
  cbn [CList.Back EasyLru.list_ EasyLru.capacity EasyLru.lock].
  rewrite Remove_last. reflexivity.
Qed.

(** [Put] of a key the store holds. *)
Lemma Put_existing (l : EasyLru.lru) (k : Key) (v : Value) (i : nat) :
  EasyLru.lock l = unlocked ->
  EasyLru.cache l k = Some i ->
  EasyLru.Put l k v =
  Return (None,
          EasyLru.with_list l
            (assign_value 0 v (CList.MoveToFront i (EasyLru.list_ l)))).
Proof.
  intros Hl Hc. destruct l as [c items m]. simpl in *. subst m.
  unfold EasyLru.Put, EasyLru.cache in *. simpl in *. rewrite Hc. reflexivity.
Qed.

(** [Put] returns whenever the lock of the store is free, with a nil error. *)
Lemma Put_returns (l : EasyLru.lru) (k : Key) (v : Value) :
  EasyLru.lock l = unlocked ->
  exists l', EasyLru.Put l k v = Return (None, l')
             /\ EasyLru.lock l' = unlocked
             /\ EasyLru.capacity l' = EasyLru.capacity l.
Proof.
  intros Hl. destruct (EasyLru.cache l k) as [i|] eqn:E.
  - eexists. split; [apply (Put_existing _ _ _ _ Hl E)|]. split; [exact Hl|reflexivity].
  - eexists. split; [apply (Put_new _ _ _ Hl E)|]. split; [exact Hl|reflexivity].
Qed.

(** [Get] never returns: the deferred [Unlock] finds the mutex locked for
    reading only, or the [RLock] waits for a writer. *)
Lemma Get_never_returns (l : EasyLru.lru) (k : Key) :
  EasyLru.Get l k =
  if w (EasyLru.lock l) then Blocked
  else Fatal "sync: Unlock of unlocked RWMutex"%string.
Proof.
  unfold EasyLru.Get, RLock. destruct (w (EasyLru.lock l)); [reflexivity|].
  cbn [bind]. destruct (EasyLru.cache _ k); reflexivity.
Qed.

(** [Peek] never reports a hit. *)
Lemma Peek_not_ok (l : EasyLru.lru) (k : Key) : snd (EasyLru.Peek l k) = false.
Proof. reflexivity. Qed.

(** [Remove] never reports that the key was held. *)
Lemma Remove_not_ok (l : EasyLru.lru) (k : Key) : fst (EasyLru.Remove l k) = false.
Proof. reflexivity. Qed.

Lemma Remove_fields (l : EasyLru.lru) (k : Key) :
  EasyLru.lock (snd (EasyLru.Remove l k)) = EasyLru.lock l
  /\ EasyLru.capacity (snd (EasyLru.Remove l k)) = EasyLru.capacity l.
Proof. unfold EasyLru.Remove. simpl. destruct (EasyLru.cache l k); split; reflexivity. Qed.

Lemma Remove_keys_sub (l : EasyLru.lru) (k x : Key) :
  In x (keys_of (snd (EasyLru.Remove l k))) -> In x (keys_of l).
Proof.
  unfold EasyLru.Remove, keys_of. simpl.
  destruct (EasyLru.cache l k); simpl; [apply Remove_In|trivial].
Qed.

Lemma Remove_keys_NoDup (l : EasyLru.lru) (k : Key) :
  NoDup (keys_of l) -> NoDup (keys_of (snd (EasyLru.Remove l k))).
Proof.
  unfold EasyLru.Remove, keys_of. simpl.
  destruct (EasyLru.cache l k); simpl; [apply Remove_NoDup|trivial].
Qed.

Lemma Remove_deletes (l : EasyLru.lru) (k : Key) :
  NoDup (keys_of l) -> ~ In k (keys_of (snd (EasyLru.Remove l k))).
Proof.
  unfold EasyLru.Remove, keys_of, EasyLru.cache. simpl. intros Hnd.
  destruct (index_of k (EasyLru.list_ l)) as [i|] eqn:E; simpl.
  - destruct (index_of_Some _ _ _ E) as [it [Hn <-]].
    now apply (Remove_absent key i _ it).
  - now apply index_of_None.
Qed.

Lemma Remove_Len_held (l : EasyLru.lru) (k : Key) :
  EasyLru.Contains l k = true ->
  EasyLru.Len (snd (EasyLru.Remove l k)) = EasyLru.Len l - 1.
Proof.
  unfold EasyLru.Contains, EasyLru.Remove, EasyLru.Len, CList.Len, EasyLru.cache. simpl.
  destruct (index_of k (EasyLru.list_ l)) as [i|] eqn:E; [intros _|discriminate].
  simpl. apply index_of_lt in E. rewrite Remove_length by assumption. lia.
Qed.

Lemma Remove_Len_le (l : EasyLru.lru) (k : Key) :
  EasyLru.Len (snd (EasyLru.Remove l k)) <= EasyLru.Len l.
Proof.
  destruct (EasyLru.Contains l k) eqn:E.
  - rewrite Remove_Len_held by assumption. lia.
  - unfold EasyLru.Contains in E. unfold EasyLru.Remove. simpl.
    destruct (EasyLru.cache l k); [discriminate|]. lia.
Qed.

Lemma RemoveOldest_spec (l : EasyLru.lru) :
  EasyLru.RemoveOldest l = (None, EasyLru.with_list l (removelast (EasyLru.list_ l))).
Proof.
  destruct l as [c items m].
  unfold EasyLru.RemoveOldest, EasyLru.removeElement, EasyLru.with_list. simpl.
  destruct items as [|x items]; [reflexivity|].
  cbn [CList.Back]. rewrite Remove_last. reflexivity.
Qed.

Lemma removelast_keys_In (l : list lruItem) (x : Key) :
  In x (map key (removelast l)) -> In x (map key l).
Proof. rewrite <- Remove_last. apply Remove_In. Qed.

Lemma removelast_keys_NoDup (l : list lruItem) :
  NoDup (map key l) -> NoDup (map key (removelast l)).
Proof. rewrite <- Remove_last. apply Remove_NoDup. Qed.

Lemma removelast_length {A : Type} (l : list A) :
  List.length (removelast l) = (List.length l - 1)%nat.
Proof.
  induction l as [|x l IH]; [reflexivity|].
  destruct l as [|y l]; [reflexivity|].
  change (removelast (x :: y :: l)) with (x :: removelast (y :: l)).
  simpl List.length in *. rewrite IH. lia.
Qed.

Lemma Contains_cache (l : EasyLru.lru) (k : Key) :
  EasyLru.Contains l k = true -> exists i, EasyLru.cache l k = Some i.
Proof.
  unfold EasyLru.Contains. destruct (EasyLru.cache l k) as [i|]; [eauto|discriminate].
Qed.

Lemma Contains_cache_None (l : EasyLru.lru) (k : Key) :
  EasyLru.Contains l k = false -> EasyLru.cache l k = None.
Proof.
  unfold EasyLru.Contains. destruct (EasyLru.cache l k) as [i|]; [discriminate|reflexivity].
Qed.

(** What [Put] does to a store that holds the key: same keys, same
    length. *)
Lemma Put_held (l : EasyLru.lru) (k : Key) (v : Value) :
  EasyLru.lock l = unlocked -> EasyLru.Contains l k = true ->
  exists l', EasyLru.Put l k v = Return (None, l')
    /\ EasyLru.lock l' = unlocked
    /\ EasyLru.capacity l' = EasyLru.capacity l
    /\ EasyLru.Len l' = EasyLru.Len l
    /\ (forall x, In x (keys_of l') <-> In x (keys_of l))
    /\ (NoDup (keys_of l) -> NoDup (keys_of l')).
Proof.
  intros Hl Hc. destruct (Contains_cache _ _ Hc) as [i Hi].
  pose proof (index_of_Some _ _ _ Hi) as [it [Hn Hk]].
  pose proof (index_of_lt _ _ _ Hi) as Hlt.
  eexists. split; [apply (Put_existing _ _ _ _ Hl Hi)|].
  unfold keys_of, EasyLru.Len, CList.Len, EasyLru.with_list.
  cbn [EasyLru.lock EasyLru.capacity EasyLru.list_].
  rewrite (keys_touch _ _ _ _ Hn), length_touch by assumption.
  repeat split; try assumption; try reflexivity.
  - intros [<-|Hx]; [apply in_map; eapply nth_error_In; eassumption|].
    eapply Remove_In; eassumption.
  - intros Hx. destruct (iface_eqb (key it) x) eqn:E.
    + left. now apply iface_eqb_eq.
    + right. eapply Remove_keeps; [eassumption|assumption|].
      intros ->. rewrite iface_eqb_refl in E. discriminate.
  - intros Hnd. constructor.
    + now apply (Remove_absent key i _ it).
    + now apply Remove_NoDup.
Qed.

(** What [Put] does to a store that does not hold the key: the key
    becomes the front; the back item goes when the store is full. *)
Lemma Put_fresh (l : EasyLru.lru) (k : Key) (v : Value) :
  EasyLru.lock l = unlocked -> EasyLru.Contains l k = false ->
  exists l', EasyLru.Put l k v = Return (None, l')
    /\ EasyLru.lock l' = unlocked
    /\ EasyLru.capacity l' = EasyLru.capacity l
    /\ (forall x, In x (keys_of l') -> x = k \/ In x (keys_of l))
    /\ (NoDup (keys_of l) -> NoDup (keys_of l'))
    /\ EasyLru.Len l' <= EasyLru.Len l + 1
    /\ (EasyLru.capacity l <= EasyLru.Len l -> 0 < EasyLru.Len l ->
        EasyLru.Len l' = EasyLru.Len l).
Proof.
  intros Hl Hc. pose proof (Contains_cache_None _ _ Hc) as Hi.
  apply Contains_false in Hc.
  eexists. split; [apply (Put_new _ _ _ Hl Hi)|].
  unfold keys_of, EasyLru.Len, CList.Len, EasyLru.with_list in *.
  cbn [EasyLru.lock EasyLru.capacity EasyLru.list_].
  destruct (Z.geb_spec (Z.of_nat (List.length (EasyLru.list_ l))) (EasyLru.capacity l)) as [Hge|Hlt];
    cbn [map key List.length]; repeat split; try assumption; try reflexivity.
  - intros x [<-|Hx]; [now left|right]. now apply removelast_keys_In.
  - intros Hnd. constructor; [|now apply removelast_keys_NoDup].
    intros Hin. apply Hc. now apply removelast_keys_In.
  - rewrite removelast_length. lia.
  - intros _ Hpos. rewrite removelast_length. lia.
  - intros x [<-|Hx]; [now left|now right].
  - intros Hnd. now constructor.
  - lia.
  - lia.
Qed.

(* ===================================================================== *)
(** * The 2Q engine *)
(* ===================================================================== *)

Ltac unfold_with :=
  unfold with_lock, with_frequent, with_recent, with_recentEvict in *;
  cbn [size recentSize recent frequent recentEvict lock] in *.

Ltac run_bind :=
  cbn [bind Lock Unlock RLock RUnlock unlocked w readerCount orb negb Nat.eqb
       size recentSize recent frequent recentEvict lock fst snd] in *.

(** [ensureSpace] returns a nil error and only ever shortens [recent] or
    [frequent], by their back item. *)
Lemma ensureSpace_spec (t : twoQueueCache) (hint : bool) :
  exists r' f',
    ensureSpace t hint = (None, with_frequent (with_recent t r') f')
    /\ EasyLru.lock r' = EasyLru.lock (recent t)
    /\ EasyLru.capacity r' = EasyLru.capacity (recent t)
    /\ EasyLru.lock f' = EasyLru.lock (frequent t)
    /\ EasyLru.capacity f' = EasyLru.capacity (frequent t)
    /\ (forall x, In x (keys_of r') -> In x (keys_of (recent t)))
    /\ (forall x, In x (keys_of f') -> In x (keys_of (frequent t)))
    /\ (NoDup (keys_of (recent t)) -> NoDup (keys_of r'))
    /\ (NoDup (keys_of (frequent t)) -> NoDup (keys_of f'))
    /\ EasyLru.Len r' <= EasyLru.Len (recent t)
    /\ EasyLru.Len f' <= EasyLru.Len (frequent t)
    /\ (hint = false ->
        EasyLru.Len (recent t) + EasyLru.Len (frequent t) <= size t ->
        EasyLru.Len r' + EasyLru.Len f' < size t
        \/ (EasyLru.Len f' = 0 /\ EasyLru.Len r' = size t)).
Proof.
  destruct t as [s rs rc fq gh lk]. unfold ensureSpace. unfold_with.
  destruct (Z.ltb_spec (EasyLru.Len rc + EasyLru.Len fq) s) as [Hlt|Hge].
  { exists rc, fq. repeat split; auto; try lia. }
  rewrite !RemoveOldest_spec.
  destruct ((EasyLru.Len rc >? 0)
            && ((EasyLru.Len rc >? rs) || ((EasyLru.Len rc =? rs) && negb hint))) eqn:E.
  - exists (EasyLru.with_list rc (removelast (EasyLru.list_ rc))), fq.
    apply andb_prop in E. destruct E as [Hpos _]. apply Z.gtb_lt in Hpos.
    unfold keys_of, EasyLru.Len, CList.Len, EasyLru.with_list in *.
    cbn [EasyLru.lock EasyLru.capacity EasyLru.list_] in *.
    rewrite removelast_length.
    repeat split; auto; try lia.
    + intros x. apply removelast_keys_In.
    + apply removelast_keys_NoDup.
  - exists rc, (EasyLru.with_list fq (removelast (EasyLru.list_ fq))).
    unfold keys_of, EasyLru.Len, CList.Len, EasyLru.with_list in *.
    cbn [EasyLru.lock EasyLru.capacity EasyLru.list_] in *.
    rewrite removelast_length.
    repeat split; auto; try lia.
    + intros x. apply removelast_keys_In.
    + apply removelast_keys_NoDup.
Qed.

Lemma ghost_empty_Contains (g : EasyLru.lru) (k : Key) :
  EasyLru.list_ g = [] -> EasyLru.Contains g k = false.
Proof.
  intros H. unfold EasyLru.Contains, EasyLru.cache. now rewrite H.
Qed.

(** [Add] returns with a nil error and keeps the invariant. *)
Lemma Add_spec (sz : Z) (t : twoQueueCache) (k : Key) (v : Value) :
  Inv sz t ->
  exists t', Add t k v = Return (None, t') /\ Inv sz t'
             /\ recentSize t' = recentSize t.
Proof.
  intros [Hs Hp Hcr Hcf Hl Hlr Hlf Hlg Hg Hnr Hnf Hd Hb].
  destruct t as [s rs rc fq gh lk]. cbn [size recentSize recent frequent recentEvict lock] in *.
  subst lk. unfold Add, locked. unfold_with. run_bind.
  destruct (EasyLru.Contains fq k) eqn:Ef.
  { (* the key is in [frequent] *)
    destruct (Put_held fq k v Hlf Ef) as (f' & HP & Hlf' & Hcf' & Hlen & Hkeys & Hnd).
    rewrite HP. run_bind. eexists. split; [reflexivity|]. split; [|reflexivity].
    constructor; cbn [size recentSize recent frequent recentEvict lock]; auto; try congruence.
    intros x Hx Hx'. apply Hkeys in Hx'. now apply (Hd x). }
  destruct (EasyLru.Contains rc k) eqn:Er.
  { (* the key is in [recent] *)
    pose proof (Remove_fields rc k) as [Hlr1 Hcr1].
    pose proof (Remove_keys_sub rc k) as Hsub.
    pose proof (Remove_keys_NoDup rc k Hnr) as Hnr1.
    pose proof (Remove_deletes rc k Hnr) as Hdel.
    pose proof (Remove_Len_held rc k Er) as Hlen1.
    destruct (EasyLru.Remove rc k) as [ok r1]. cbn [snd] in *.
    destruct (Put_fresh fq k v Hlf Ef) as (f' & HP & Hlf' & Hcf' & Hkeys & Hnd & Hlen & _).
    rewrite HP. run_bind. eexists. split; [reflexivity|]. split; [|reflexivity].
    constructor; cbn [size recentSize recent frequent recentEvict lock]; auto;
      try congruence; try lia.
    intros x Hx Hx'. destruct (Hkeys x Hx') as [->|Hq]; [contradiction|].
    apply (Hd x); [now apply Hsub|assumption]. }
  rewrite (ghost_empty_Contains gh k Hg).
  (* a key held by no store *)
  match goal with
  | |- context [ensureSpace ?t0 false] =>
      destruct (ensureSpace_spec t0 false)
        as (r' & f' & He & Hlr' & Hcr' & Hlf' & Hcf' & Hsr & Hsf & Hnr' & Hnf' & Hler & Hlef & Hroom)
  end.
  rewrite He. unfold_with.
  assert (EasyLru.Contains r' k = false) as Er'.
  { apply Contains_false. intros Hin. apply Hsr in Hin.
    apply Contains_In in Hin. congruence. }
  assert (EasyLru.lock r' = unlocked) as Hlr'' by congruence.
  destruct (Put_fresh r' k v Hlr'' Er') as (r'' & HP & Hlr3 & Hcr3 & Hkeys & Hnd & Hlen & Hfull).
  rewrite HP. run_bind. eexists. split; [reflexivity|]. split; [|reflexivity].
  constructor; cbn [size recentSize recent frequent recentEvict lock]; auto; try congruence.
  - intros x Hx Hx'. apply Hsf in Hx'. destruct (Hkeys x Hx) as [->|Hq].
    + apply Contains_In in Hx'. congruence.
    + apply (Hd x); [now apply Hsr|assumption].
  - destruct (Hroom eq_refl (ltac:(lia))) as [Hlt|[Hz Hsz]]; [lia|].
    rewrite Hfull; lia.
Qed.

(** [Remove] returns and keeps the invariant. As [lru.Remove] reports
    [false] whatever it did, all three stores are asked. *)
Lemma Remove_spec (sz : Z) (t : twoQueueCache) (k : Key) :
  Inv sz t ->
  exists t', Remove t k = Return (tt, t') /\ Inv sz t'
             /\ recentSize t' = recentSize t.
Proof.
  intros [Hs Hp Hcr Hcf Hl Hlr Hlf Hlg Hg Hnr Hnf Hd Hb].
  destruct t as [s rs rc fq gh lk]. cbn [size recentSize recent frequent recentEvict lock] in *.
  subst lk. unfold Remove, locked. unfold_with. run_bind.
  pose proof (Remove_fields rc k) as [Hlr1 Hcr1].
  pose proof (Remove_keys_sub rc k) as Hsubr.
  pose proof (Remove_keys_NoDup rc k Hnr) as Hnr1.
  pose proof (Remove_Len_le rc k) as Hler.
  pose proof (Remove_not_ok rc k) as Hokr.
  pose proof (Remove_fields fq k) as [Hlf1 Hcf1].
  pose proof (Remove_keys_sub fq k) as Hsubf.
  pose proof (Remove_keys_NoDup fq k Hnf) as Hnf1.
  pose proof (Remove_Len_le fq k) as Hlef.
  pose proof (Remove_not_ok fq k) as Hokf.
  pose proof (Remove_fields gh k) as [Hlg1 _].
  assert (EasyLru.list_ (snd (EasyLru.Remove gh k)) = []) as Hg1.
  { unfold EasyLru.Remove, EasyLru.cache. rewrite Hg. assumption. }
  destruct (EasyLru.Remove fq k) as [okf f1].
  destruct (EasyLru.Remove rc k) as [okr r1].
  destruct (EasyLru.Remove gh k) as [okg g1].
  cbn [fst snd] in *. subst okf okr. run_bind.
  eexists. split; [reflexivity|]. split; [|reflexivity].
  constructor; cbn [size recentSize recent frequent recentEvict lock]; auto;
    try congruence; try lia.
  intros x Hx Hx'. apply (Hd x); auto.
Qed.

(** [Purge] returns and keeps the invariant. *)
Lemma Purge_spec (sz : Z) (t : twoQueueCache) :
  Inv sz t ->
  exists t', Purge t = Return (tt, t') /\ Inv sz t'
             /\ recentSize t' = recentSize t
             /\ EasyLru.list_ (recent t') = [] /\ EasyLru.list_ (frequent t') = [].
Proof.
  intros [Hs Hp Hcr Hcf Hl Hlr Hlf Hlg Hg Hnr Hnf Hd Hb].
  destruct t as [s rs rc fq gh lk]. cbn [size recentSize recent frequent recentEvict lock] in *.
  subst lk. unfold Purge, locked. unfold_with. run_bind.
  eexists. split; [reflexivity|].
  split; [|repeat split].
  constructor; cbn [size recentSize recent frequent recentEvict lock]; auto;
    unfold EasyLru.Purge, EasyLru.with_list, keys_of, EasyLru.Len, CList.Len;
    cbn [EasyLru.lock EasyLru.capacity EasyLru.list_ map List.length]; auto;
    try constructor; try lia.
Qed.

(** The four methods that take the read lock return and leave the
    engine as it was. *)
Lemma Len_spec (sz : Z) (t : twoQueueCache) :
  Inv sz t ->
  Len t = Return (EasyLru.Len (recent t) + EasyLru.Len (frequent t), t).
Proof.
  intros [Hs Hp Hcr Hcf Hl Hlr Hlf Hlg Hg Hnr Hnf Hd Hb].
  destruct t as [s rs rc fq gh lk]. cbn [size recentSize recent frequent recentEvict lock] in *.
  subst lk. reflexivity.
Qed.

Lemma Keys_spec (sz : Z) (t : twoQueueCache) :
  Inv sz t ->
  Keys t = Return (EasyLru.Keys (frequent t) ++ EasyLru.Keys (recent t), t).
Proof.
  intros [Hs Hp Hcr Hcf Hl Hlr Hlf Hlg Hg Hnr Hnf Hd Hb].
  destruct t as [s rs rc fq gh lk]. cbn [size recentSize recent frequent recentEvict lock] in *.
  subst lk. reflexivity.
Qed.

Lemma Contains_spec (sz : Z) (t : twoQueueCache) (k : Key) :
  Inv sz t ->
  Contains t k
  = Return (EasyLru.Contains (frequent t) k || EasyLru.Contains (recent t) k, t).
Proof.
  intros [Hs Hp Hcr Hcf Hl Hlr Hlf Hlg Hg Hnr Hnf Hd Hb].
  destruct t as [s rs rc fq gh lk]. cbn [size recentSize recent frequent recentEvict lock] in *.
  subst lk. reflexivity.
Qed.

Lemma Peek_spec (sz : Z) (t : twoQueueCache) (k : Key) :
  Inv sz t ->
  Peek t k = Return (EasyLru.Peek (recent t) k, t).
Proof.
  intros [Hs Hp Hcr Hcf Hl Hlr Hlf Hlg Hg Hnr Hnf Hd Hb].
  destruct t as [s rs rc fq gh lk]. cbn [size recentSize recent frequent recentEvict lock] in *.
  subst lk. reflexivity.
Qed.

(** [Get] stops the process: its first step is [t.frequent.Get]. *)
Lemma Get_fatal (sz : Z) (t : twoQueueCache) (k : Key) :
  Inv sz t ->
  Get t k = Fatal "sync: Unlock of unlocked RWMutex"%string.
Proof.
  intros [Hs Hp Hcr Hcf Hl Hlr Hlf Hlg Hg Hnr Hnf Hd Hb].
  unfold Get. rewrite Get_never_returns, Hlf. reflexivity.
Qed.

(** Every call other than [Get] returns, and the invariant holds again. *)
Lemma exec_spec (sz : Z) (t : twoQueueCache) (c : call) :
  Inv sz t -> is_get c = false ->
  exists t', exec t c = Return t' /\ Inv sz t' /\ recentSize t' = recentSize t.
Proof.
  intros HI Hc. destruct c as [k v|k|k| | | |k|k]; cbn [exec]; try discriminate.
  - destruct (Add_spec sz t k v HI) as (t' & -> & HI' & Hrs). cbn [bind]. eauto.
  - destruct (Remove_spec sz t k HI) as (t' & -> & HI' & Hrs). cbn [bind]. eauto.
  - destruct (Purge_spec sz t HI) as (t' & -> & HI' & Hrs & _). cbn [bind]. eauto.
  - rewrite (Len_spec sz t HI). cbn [bind]. eauto.
  - rewrite (Keys_spec sz t HI). cbn [bind]. eauto.
  - rewrite (Contains_spec sz t k HI). cbn [bind]. eauto.
  - rewrite (Peek_spec sz t k HI). cbn [bind]. eauto.
Qed.

Lemma exec_Inv (sz : Z) (t t' : twoQueueCache) (c : call) :
  Inv sz t -> exec t c = Return t' -> Inv sz t' /\ recentSize t' = recentSize t.
Proof.
  intros HI H. destruct (is_get c) eqn:Hc.
  - destruct c; try discriminate. cbn [exec] in H.
    rewrite (Get_fatal sz t k HI) in H. discriminate.
  - destruct (exec_spec sz t c HI Hc) as (t'' & He & HI' & Hrs).
    rewrite He in H. injection H as <-. auto.
Qed.

Lemma run_Inv (sz : Z) (cs : list call) (t t' : twoQueueCache) :
  Inv sz t -> run t cs = Return t' -> Inv sz t' /\ recentSize t' = recentSize t.
Proof.
  revert t. induction cs as [|c cs IH]; intros t HI H; cbn [run] in H.
  - injection H as <-. auto.
  - destruct (exec t c) as [t1| |] eqn:He; cbn [bind] in H; try discriminate.
    destruct (exec_Inv sz t t1 c HI He) as [HI1 Hrs1].
    destruct (IH t1 HI1 H) as [HI' Hrs']. split; [assumption|congruence].
Qed.

(** A sequence of calls without [Get] runs to its end. *)
Lemma run_returns (sz : Z) (cs : list call) (t : twoQueueCache) :
  Inv sz t -> forallb (fun c => negb (is_get c)) cs = true ->
  exists t', run t cs = Return t'.
Proof.
  revert t. induction cs as [|c cs IH]; intros t HI H; cbn [run].
  - eauto.
  - cbn [forallb] in H. apply andb_prop in H. destruct H as [Hc Hcs].
    apply negb_true_iff in Hc.
    destruct (exec_spec sz t c HI Hc) as (t1 & -> & HI1 & _). cbn [bind].
    now apply IH.
Qed.

(** The cache that [New2QParams] returns satisfies the invariant. *)
Lemma New2QParams_Inv (impl : float64 -> Z) (sz : Z) (rr gr : float64) (t : twoQueueCache) (e : error) :
  New2QParams impl sz rr gr = (Some t, e) -> Inv sz t.
Proof.
  unfold New2QParams, EasyLru.NewLRU. intros H.
  destruct (Z.leb_spec sz 0) as [Hle|Hpos]; [discriminate|].
  destruct (float64_lt rr _ || float64_gt rr _); [discriminate|].
  destruct (float64_lt gr _ || float64_gt gr _); [discriminate|].
  destruct (int_of_float64 impl (float64_mul (float64_of_int sz) gr) <=? 0); [discriminate|].
  injection H as <- <-.
  constructor; cbn; auto; try constructor; try lia.
Qed.

Lemma New2Q_Inv (impl : float64 -> Z) (sz : Z) (rr gr : float64) (t : twoQueueCache) (e : error) :
  New2Q impl sz rr gr = (Some t, e) -> Inv sz t.
Proof. unfold New2Q. apply New2QParams_Inv. Qed.

(* ===================================================================== *)
(** * Filling a bounded store *)
(* ===================================================================== *)

Lemma putAll_app (l : EasyLru.lru) (a b : list (Key * Value)) :
  putAll l (a ++ b) = (l' <- putAll l a ;; putAll l' b).
Proof.
  revert l. induction a as [|[k v] a IH]; intros l; [reflexivity|].
  cbn [app putAll]. destruct (EasyLru.Put l k v) as [[e l1]| |]; cbn [bind]; auto.
Qed.

Lemma map_key_item_of (kvs : list (Key * Value)) :
  map key (map item_of kvs) = map fst kvs.
Proof. rewrite map_map. reflexivity. Qed.

(** As long as the capacity is not exceeded, the store holds the pairs put
    so far, the last one at the front. *)
Lemma putAll_fill (l : EasyLru.lru) (kvs : list (Key * Value)) :
  EasyLru.lock l = unlocked -> EasyLru.list_ l = [] ->
  NoDup (map fst kvs) -> Z.of_nat (List.length kvs) <= EasyLru.capacity l ->
  putAll l kvs = Return (EasyLru.with_list l (rev (map item_of kvs))).
Proof.
  intros Hl He. induction kvs as [|[k v] kvs IH] using rev_ind; intros Hnd Hlen.
  - cbn. destruct l; cbn in *; subst; reflexivity.
  - rewrite map_app in Hnd. cbn [map fst] in Hnd.
    apply NoDup_remove in Hnd. rewrite app_nil_r in Hnd. destruct Hnd as [Hnd Hk].
    rewrite length_app in Hlen. cbn [List.length] in Hlen.
    rewrite putAll_app, IH by (assumption || lia). cbn [bind putAll].
    rewrite Put_new.
    + cbn [bind EasyLru.with_list EasyLru.list_ EasyLru.capacity EasyLru.lock].
      destruct (Z.geb_spec (CList.Len (rev (map item_of kvs))) (EasyLru.capacity l)) as [Hge|_].
      * unfold CList.Len in Hge. rewrite length_rev, length_map in Hge. lia.
      * rewrite map_app, rev_app_distr. reflexivity.
    + exact Hl.
    + unfold EasyLru.cache. cbn [EasyLru.with_list EasyLru.list_].
      apply index_of_None. rewrite map_rev, map_key_item_of, <- in_rev. exact Hk.
Qed.

(** One more distinct key pushes the first pair out. *)
Lemma putAll_overflow (l : EasyLru.lru) (kvs : list (Key * Value)) :
  EasyLru.lock l = unlocked -> EasyLru.list_ l = [] ->
  0 < EasyLru.capacity l ->
  NoDup (map fst kvs) -> Z.of_nat (List.length kvs) = EasyLru.capacity l + 1 ->
  putAll l kvs = Return (EasyLru.with_list l (rev (map item_of (tl kvs)))).
Proof.
  intros Hl He Hpos Hnd Hlen.
  destruct kvs as [|kv0 kvs _] using rev_ind; [cbn in Hlen; lia|].
  destruct kv0 as [k v].
  rewrite map_app in Hnd. cbn [map fst] in Hnd.
  apply NoDup_remove in Hnd. rewrite app_nil_r in Hnd. destruct Hnd as [Hnd Hk].
  rewrite length_app in Hlen. cbn [List.length] in Hlen.
  rewrite putAll_app, putAll_fill by (assumption || lia). cbn [bind putAll].
  rewrite Put_new.
  - cbn [bind EasyLru.with_list EasyLru.list_ EasyLru.capacity EasyLru.lock].
    destruct (Z.geb_spec (CList.Len (rev (map item_of kvs))) (EasyLru.capacity l)) as [_|Hlt].
    + destruct kvs as [|kv1 kvs]; [cbn in Hlen; lia|].
      cbn [app tl map rev]. rewrite removelast_last, map_app, rev_app_distr. reflexivity.
    + unfold CList.Len in Hlt. rewrite length_rev, length_map in Hlt. lia.
  - exact Hl.
  - unfold EasyLru.cache. cbn [EasyLru.with_list EasyLru.list_].
    apply index_of_None. rewrite map_rev, map_key_item_of, <- in_rev. exact Hk.
Qed.

Lemma NewLRU_Some (N : Z) (l : EasyLru.lru) (e : error) :
  EasyLru.NewLRU N = (Some l, e) ->
  0 < N /\ EasyLru.capacity l = N /\ EasyLru.list_ l = [] /\ EasyLru.lock l = unlocked.
Proof.
  unfold EasyLru.NewLRU. destruct (Z.leb_spec N 0) as [Hle|Hpos]; [discriminate|].
  intros Heq. injection Heq as <- _. auto.
Qed.

(** The first [Get] of a sequence stops the process. *)
Lemma run_stops_at_Get (sz : Z) (pre post : list call) (k : Key) (t : twoQueueCache) :
  Inv sz t -> forallb (fun c => negb (is_get c)) pre = true ->
  run t (pre ++ CGet k :: post) = Fatal "sync: Unlock of unlocked RWMutex"%string.
Proof.
  revert t. induction pre as [|c pre IH]; intros t HI Hpre.
  - cbn [app run exec]. now rewrite (Get_fatal sz t k HI).
  - cbn [forallb] in Hpre. apply andb_prop in Hpre. destruct Hpre as [Hc Hpre].
    apply negb_true_iff in Hc.
    destruct (exec_spec sz t c HI Hc) as (t1 & He & HI1 & _).
    cbn [app run]. rewrite He. cbn [bind]. now apply IH.
Qed.

(** No method puts a key into [recentEvict]: whatever the state, the keys
    of the ghost store after a call were there before it. *)
Ltac norm := repeat (progress (unfold_with; cbn [bind fst snd])).

Lemma exec_ghost_never_grows (t t' : twoQueueCache) (c : call) (x : Key) :
  exec t c = Return t' ->
  In x (keys_of (recentEvict t')) -> In x (keys_of (recentEvict t)).
Proof.
  destruct t as [s rs rc fq gh lk].
  destruct c as [k v|k|k| | | |k|k]; cbn [exec].
  - unfold Add, locked. unfold_with.
    destruct (Lock lk) as [m| |]; norm; try discriminate.
    destruct (EasyLru.Contains fq k).
    { destruct (EasyLru.Put fq k v) as [[e f]| |]; norm; try discriminate.
      norm. destruct (Unlock m); norm; try discriminate.
      intros H. injection H as <-. trivial. }
    destruct (EasyLru.Contains rc k).
    { destruct (EasyLru.Remove rc k) as [ok r1].
      destruct (EasyLru.Put fq k v) as [[e f]| |]; norm; try discriminate.
      norm. destruct (Unlock m); norm; try discriminate.
      intros H. injection H as <-. trivial. }
    destruct (EasyLru.Contains gh k).
    { match goal with
      | |- context [ensureSpace ?t0 true] =>
          destruct (ensureSpace_spec t0 true) as (r' & f' & He & _)
      end.
      rewrite He. unfold_with.
      pose proof (Remove_keys_sub gh k x) as Hsub.
      destruct (EasyLru.Remove gh k) as [ok g1]. cbn [snd] in Hsub.
      destruct (EasyLru.Put f' k v) as [[e f]| |]; norm; try discriminate.
      norm. destruct (Unlock m); norm; try discriminate.
      intros H. injection H as <-. exact Hsub. }
    match goal with
    | |- context [ensureSpace ?t0 false] =>
        destruct (ensureSpace_spec t0 false) as (r' & f' & He & _)
    end.
    rewrite He. unfold_with.
    destruct (EasyLru.Put r' k v) as [[e r]| |]; norm; try discriminate.
    norm. destruct (Unlock m); norm; try discriminate.
    intros H. injection H as <-. trivial.
  - unfold Get. unfold_with. rewrite Get_never_returns.
    destruct (w (EasyLru.lock fq)); discriminate.
  - unfold Remove, locked. unfold_with.
    destruct (Lock lk) as [m| |]; norm; try discriminate.
    pose proof (Remove_keys_sub gh k x) as Hsub.
    destruct (EasyLru.Remove fq k) as [okf f1].
    destruct (EasyLru.Remove rc k) as [okr r1].
    destruct (EasyLru.Remove gh k) as [okg g1]. cbn [snd] in Hsub.
    destruct okf; [|destruct okr]; unfold_with; norm;
      (destruct (Unlock m); norm; try discriminate;
       intros H; injection H as <-; auto).

  - unfold Purge, locked. unfold_with.
    destruct (Lock lk) as [m| |]; norm; try discriminate.
    destruct (Unlock m); norm; try discriminate.
    intros H. injection H as <-. intros [].
  - unfold Len, rlocked. unfold_with.
    destruct (RLock lk) as [m| |]; norm; try discriminate.
    destruct (RUnlock m); norm; try discriminate.
    intros H. injection H as <-. trivial.
  - unfold Keys, rlocked. unfold_with.
    destruct (RLock lk) as [m| |]; norm; try discriminate.
    destruct (RUnlock m); norm; try discriminate.
    intros H. injection H as <-. trivial.
  - unfold Contains, rlocked. unfold_with.
    destruct (RLock lk) as [m| |]; norm; try discriminate.
    destruct (RUnlock m); norm; try discriminate.
    intros H. injection H as <-. trivial.
  - unfold Peek, rlocked. unfold_with.
    destruct (RLock lk) as [m| |]; norm; try discriminate.
    destruct (EasyLru.Peek fq k) as [val ok].
    destruct ok; norm;
      (destruct (RUnlock m); norm; try discriminate;
       intros H; injection H as <-; trivial).
Qed.

(* ===================================================================== *)
(** * The claims *)
(* ===================================================================== *)

(** C8. Bounded LRU eviction order. A store built by [NewLRU(N)] that
    receives [N+1] pairs with distinct keys through [Put], in order,
    returns from every [Put], no longer holds the first key and holds all
    the others; [Keys] lists them from the oldest to the newest. With
    capacity 2 and the pairs (10,20), (30,40), ("50",20) the store holds
    30 and "50" and no longer contains 10; but [Get(10)] on that store
    does not return the "not found" error: it stops the process in its
    deferred [Unlock]. *)
Theorem C8_lru_eviction_order (N : Z) (l : EasyLru.lru) (kvs : list (Key * Value)) :
  EasyLru.NewLRU N = (Some l, None) ->
  NoDup (map fst kvs) ->
  Z.of_nat (List.length kvs) = N + 1 ->
  (exists l',
      putAll l kvs = Return l'
      /\ EasyLru.Keys l' = tl (map fst kvs)
      /\ EasyLru.Len l' = N
      /\ EasyLru.Contains l' (hd Nil (map fst kvs)) = false
      /\ (forall k, In k (tl (map fst kvs)) -> EasyLru.Contains l' k = true))
  /\ (exists l2,
         EasyLru.NewLRU 2 = (Some store_2, None)
         /\ putAll store_2 [(Int 10, Int 20); (Int 30, Int 40); (Str "50", Int 20)]
            = Return l2
         /\ EasyLru.Keys l2 = [Int 30; Str "50"]
         /\ EasyLru.Contains l2 (Int 10) = false
         /\ EasyLru.Get l2 (Int 10)
            = Fatal "sync: Unlock of unlocked RWMutex"%string).
Proof.
  intros HN Hnd Hlen.
  destruct (NewLRU_Some _ _ _ HN) as (Hpos & Hcap & Hempty & Hlock).
  split.
  - eexists. split.
    { apply putAll_overflow; try assumption; lia. }
    assert (keys_of (EasyLru.with_list l (rev (map item_of (tl kvs))))
            = rev (tl (map fst kvs))) as Hkeys.
    { unfold keys_of. cbn [EasyLru.with_list EasyLru.list_].
      rewrite map_rev, map_key_item_of. destruct kvs; reflexivity. }
    split; [|split; [|split]].
    + unfold EasyLru.Keys. fold (keys_of (EasyLru.with_list l (rev (map item_of (tl kvs))))).
      rewrite Hkeys. apply rev_involutive.
    + unfold EasyLru.Len, CList.Len. cbn [EasyLru.with_list EasyLru.list_].
      rewrite length_rev, length_map. destruct kvs; cbn [List.length tl] in *; lia.
    + apply Contains_false. rewrite Hkeys, <- in_rev.
      destruct kvs as [|[k0 v0] kvs]; [cbn in Hlen; lia|].
      cbn [map fst hd tl] in *. now inversion Hnd.
    + intros k Hk. apply Contains_In. rewrite Hkeys, <- in_rev. exact Hk.
  - eexists. repeat split; vm_compute; reflexivity.
Qed.

(** The theorem at capacity 2 with the keys 1, 2, 3. *)
Lemma C8_lru_eviction_order_witness :
  exists l',
    putAll store_2 [(Int 1, Str "a"); (Int 2, Str "b"); (Int 3, Str "c")] = Return l'
    /\ EasyLru.Keys l' = [Int 2; Int 3].
Proof.
  destruct (C8_lru_eviction_order 2 store_2
              [(Int 1, Str "a"); (Int 2, Str "b"); (Int 3, Str "c")])
    as [(l' & Hput & Hkeys & _) _].
  - reflexivity.
  - cbn [map fst]. repeat constructor; cbn [In]; intuition discriminate.
  - reflexivity.
  - exists l'. split; [exact Hput|exact Hkeys].
Defined.

(** C3. Capacity invariant. On a cache that [New2QParams] returned for the
    size [sz], after any sequence of calls of the exported methods the
    stores [recent] and [frequent] hold at most [sz] entries together;
    and a sequence without [Get] does run to its end. *)
Theorem C3_capacity_invariant (impl : float64 -> Z) (sz : Z) (rr gr : float64)
    (t : twoQueueCache) (cs : list call) :
  New2QParams impl sz rr gr = (Some t, None) ->
  (forall t', run t cs = Return t' ->
              EasyLru.Len (recent t') + EasyLru.Len (frequent t') <= sz)
  /\ (forallb (fun c => negb (is_get c)) cs = true ->
      exists t', run t cs = Return t').
Proof.
  intros Hnew. pose proof (New2QParams_Inv _ _ _ _ _ _ Hnew) as HI. split.
  - intros t' Hrun. destruct (run_Inv sz cs t t' HI Hrun) as [HI' _].
    apply (inv_budget sz t' HI').
  - apply (run_returns sz cs t HI).
Qed.

(** The theorem on the cache of [New2QParams(2, 0.5, 0.5)] and the calls
    [calls_mixed]. *)
Lemma C3_capacity_invariant_witness :
  exists t',
    run cache_2_half calls_mixed = Return t'
    /\ EasyLru.Len (recent t') + EasyLru.Len (frequent t') <= 2.
Proof.
  eexists. split; [vm_compute; reflexivity|].
  refine (proj1 (C3_capacity_invariant amd64 2 half half cache_2_half calls_mixed _) _ _).
  - vm_compute; reflexivity.
  - vm_compute; reflexivity.
Defined.

(** C4. Disjointness invariant. On a cache that [New2QParams] returned,
    after any sequence of calls of the exported methods every key is
    present in at most one of [recent], [frequent] and [recentEvict]. *)
Theorem C4_disjointness_invariant (impl : float64 -> Z) (sz : Z) (rr gr : float64)
    (t t' : twoQueueCache) (cs : list call) (k : Key) :
  New2QParams impl sz rr gr = (Some t, None) ->
  run t cs = Return t' ->
  (stores_holding t' k <= 1)%nat.
Proof.
  intros Hnew Hrun. pose proof (New2QParams_Inv _ _ _ _ _ _ Hnew) as HI.
  destruct (run_Inv sz cs t t' HI Hrun) as [HI' _].
  unfold stores_holding.
  rewrite (ghost_empty_Contains _ k (inv_ghost sz t' HI')).
  destruct (EasyLru.Contains (recent t') k) eqn:Er;
    destruct (EasyLru.Contains (frequent t') k) eqn:Ef; try (cbn; lia).
  exfalso. apply Contains_In in Er, Ef.
  exact (inv_disjoint sz t' HI' k Er Ef).
Qed.

(** The theorem on the cache of [New2QParams(2, 0.5, 0.5)], the calls
    [calls_promote] and key 1. *)
Lemma C4_disjointness_invariant_witness :
  exists t',
    run cache_2_half calls_promote = Return t'
    /\ (stores_holding t' (Int 1) <= 1)%nat.
Proof.
  eexists. split; [vm_compute; reflexivity|].
  refine (C4_disjointness_invariant amd64 2 half half cache_2_half _ calls_promote (Int 1) _ _).
  - vm_compute; reflexivity.
  - vm_compute; reflexivity.
Defined.

(** C10. The ghost store stays empty. On a cache that [New2QParams]
    returned, after any sequence of calls of the exported methods
    [recentEvict] holds no entry, so the test [t.recentEvict.Contains(key)]
    of [Add] is false for every key: its third branch is never taken. And
    from any state whatever, no call adds a key to [recentEvict]. *)
Theorem C10_ghost_store_always_empty (impl : float64 -> Z) (sz : Z) (rr gr : float64)
    (t t' : twoQueueCache) (cs : list call) :
  New2QParams impl sz rr gr = (Some t, None) ->
  run t cs = Return t' ->
  EasyLru.list_ (recentEvict t') = []
  /\ EasyLru.Len (recentEvict t') = 0
  /\ (forall k, EasyLru.Contains (recentEvict t') k = false)
  /\ (forall s s' c x,
        exec s c = Return s' ->
        In x (keys_of (recentEvict s')) -> In x (keys_of (recentEvict s))).
Proof.
  intros Hnew Hrun. pose proof (New2QParams_Inv _ _ _ _ _ _ Hnew) as HI.
  destruct (run_Inv sz cs t t' HI Hrun) as [HI' _].
  pose proof (inv_ghost sz t' HI') as Hg. split; [exact Hg|]. split; [|split].
  - unfold EasyLru.Len. now rewrite Hg.
  - intros k. now apply ghost_empty_Contains.
  - intros s s' c x. apply exec_ghost_never_grows.
Qed.

(** The theorem on the cache of [New2Q(2, 0.0, 0.0)] and the calls
    [calls_evict]. *)
Lemma C10_ghost_store_always_empty_witness :
  exists t',
    run cache_2 calls_evict = Return t'
    /\ EasyLru.list_ (recentEvict t') = [].
Proof.
  eexists. split; [vm_compute; reflexivity|].
  refine (proj1 (C10_ghost_store_always_empty amd64 2 Default2QRecentRatio
                   Default2QGhostEntries cache_2 _ calls_evict _ _)).
  - vm_compute; reflexivity.
  - vm_compute; reflexivity.
Defined.

(** C1. Ghost tracking of the entries evicted from [recent]. On the cache
    of [New2Q(2, 0.0, 0.0)], after [Add(1,a)] and [Add(2,b)] the call
    [Add(3,c)] makes [ensureSpace] evict key 1 from [recent];
    [recentEvict] does not receive it, key 1 is then in no store, and
    [Add(1,v2)] places it in [recent], not in [frequent]. *)
Theorem C1_evicted_key_returns_to_recent :
  exists t2 t3 t4,
    New2Q amd64 2 zero zero = (Some cache_2, None)
    /\ run cache_2 [CAdd (Int 1) (Str "a"); CAdd (Int 2) (Str "b")] = Return t2
    /\ keys_of (recent t2) = [Int 2; Int 1]
    /\ keys_of (recent (snd (ensureSpace t2 false))) = [Int 2]
    /\ keys_of (recentEvict (snd (ensureSpace t2 false))) = []
    /\ Add t2 (Int 3) (Str "c") = Return (None, t3)
    /\ stores_holding t3 (Int 1) = 0%nat
    /\ Add t3 (Int 1) (Str "v2") = Return (None, t4)
    /\ EasyLru.Contains (recent t4) (Int 1) = true
    /\ EasyLru.Contains (frequent t4) (Int 1) = false.
Proof.
  do 3 eexists. split; [vm_compute; reflexivity|].
  split; [vm_compute; reflexivity|].
  repeat split; vm_compute; reflexivity.
Qed.

(** C2. [Get] of a key held by [recent]. On the cache of
    [New2Q(2, 0.0, 0.0)] after [Add(2, 4)], key 2 is in [recent] with
    value 4 and not in [frequent]; [Get(2)] does not return (4, nil): the
    process stops in [t.frequent.Get]; and [t.recent.Peek(2)] reports
    [ok = false], so the promotion would not be taken either. *)
Theorem C2_Get_of_recent_key :
  exists t1,
    New2Q amd64 2 zero zero = (Some cache_2, None)
    /\ Add cache_2 (Int 2) (Int 4) = Return (None, t1)
    /\ EasyLru.Contains (frequent t1) (Int 2) = false
    /\ EasyLru.Contains (recent t1) (Int 2) = true
    /\ EasyLru.Peek (recent t1) (Int 2) = (Int 4, false)
    /\ Get t1 (Int 2) = Fatal "sync: Unlock of unlocked RWMutex"%string.
Proof.
  eexists. split; [vm_compute; reflexivity|].
  split; [vm_compute; reflexivity|].
  repeat split; vm_compute; reflexivity.
Qed.

(** C7. [Remove] of the bounded store. The result is [false] for every
    store and key; on the store that holds key 10 alone, [Remove(10)]
    deletes the entry and still returns [false]. *)
Theorem C7_Remove_reports_false :
  (forall l k, fst (EasyLru.Remove l k) = false)
  /\ exists l,
       putAll store_2 [(Int 10, Int 20)] = Return l
       /\ EasyLru.Contains l (Int 10) = true
       /\ EasyLru.Remove l (Int 10) = (false, store_2).
Proof.
  split; [apply Remove_not_ok|].
  eexists. split; [vm_compute; reflexivity|].
  split; vm_compute; reflexivity.
Qed.

(** C9. The lock of the engine. While another caller holds [t.lock] for
    writing, [Add], [Remove] and [Purge] wait for it; [Get] behaves as if
    the lock were not there: it never acquires it. *)
Theorem C9_Get_takes_no_engine_lock :
  (forall t k v,
      Add (with_lock t write_held) k v = Blocked
      /\ Remove (with_lock t write_held) k = Blocked
      /\ Purge (with_lock t write_held) = Blocked)
  /\ (forall t m k, Get (with_lock t m) k = Get t k)
  /\ exists t1,
       Add cache_2 (Int 2) (Int 4) = Return (None, t1)
       /\ Get (with_lock t1 write_held) (Int 2)
          = Fatal "sync: Unlock of unlocked RWMutex"%string.
Proof.
  split; [|split].
  - intros t k v. repeat split; reflexivity.
  - intros t m k. unfold Get.
    cbn [with_lock frequent]. rewrite !Get_never_returns.
    destruct (w (EasyLru.lock (frequent t))); reflexivity.
  - eexists. split; vm_compute; reflexivity.
Qed.

(** C5, as stated, fails. [New2QParams(2, 0.5, 0.5)] returns a cache whose
    [recentSize] is 1 while its [recent] store has capacity 2, and after
    [Add(1,a)], [Add(2,b)] the [recent] store holds 2 entries. *)
Lemma C5_counterexample :
  New2QParams amd64 2 half half = (Some cache_2_half, None)
  /\ recentSize cache_2_half = 1
  /\ ~ (EasyLru.capacity (recent cache_2_half) = recentSize cache_2_half)
  /\ exists t',
       run cache_2_half [CAdd (Int 1) (Str "a"); CAdd (Int 2) (Str "b")] = Return t'
       /\ ~ (EasyLru.Len (recent t') <= recentSize t').
Proof.
  split; [vm_compute; reflexivity|]. split; [reflexivity|].
  split; [vm_compute; discriminate|].
  eexists. split; [vm_compute; reflexivity|].
  vm_compute. intros H. apply H. reflexivity.
Qed.

(** C5, amended. A cache returned by [New2QParams] keeps
    [int(float64(size) * recentRatio)] in its field [recentSize]; its
    stores [recent] and [frequent] both have capacity [size] and
    [recentEvict] has capacity [int(float64(size) * ghostRatio)]; the
    [recent] store never holds more than [size] entries. *)
Theorem C5_store_capacities (impl : float64 -> Z) (sz : Z) (rr gr : float64)
    (t : twoQueueCache) :
  New2QParams impl sz rr gr = (Some t, None) ->
  size t = sz
  /\ recentSize t = int_of_float64 impl (float64_mul (float64_of_int sz) rr)
  /\ EasyLru.capacity (recent t) = sz
  /\ EasyLru.capacity (frequent t) = sz
  /\ EasyLru.capacity (recentEvict t)
     = int_of_float64 impl (float64_mul (float64_of_int sz) gr)
  /\ forall cs t', run t cs = Return t' -> EasyLru.Len (recent t') <= sz.
Proof.
  intros Hnew. pose proof (New2QParams_Inv _ _ _ _ _ _ Hnew) as HI.
  assert (forall cs t', run t cs = Return t' -> EasyLru.Len (recent t') <= sz) as Hlen.
  { intros cs t' Hrun. destruct (run_Inv sz cs t t' HI Hrun) as [HI' _].
    pose proof (inv_budget sz t' HI') as Hb.
    unfold EasyLru.Len, CList.Len in *. lia. }
  revert Hnew. unfold New2QParams, EasyLru.NewLRU.
  destruct (sz <=? 0); [discriminate|].
  destruct (float64_lt rr _ || float64_gt rr _); [discriminate|].
  destruct (float64_lt gr _ || float64_gt gr _); [discriminate|].
  destruct (int_of_float64 impl (float64_mul (float64_of_int sz) gr) <=? 0); [discriminate|].
  intros Heq. injection Heq as <-. cbn. auto 10.
Qed.

(** The theorem on [New2QParams(2, 0.5, 0.5)]. *)
Lemma C5_store_capacities_witness :
  EasyLru.capacity (recent cache_2_half) = 2 /\ recentSize cache_2_half = 1.
Proof.
  destruct (C5_store_capacities amd64 2 half half cache_2_half)
    as (_ & Hrs & Hcr & _).
  - vm_compute; reflexivity.
  - split; [exact Hcr|]. rewrite Hrs. vm_compute; reflexivity.
Defined.

(** C6, as stated, fails. [New2QParams(1, 0.5, 0.5)] has a positive size
    and both ratios within [0.0, 1.0], and returns an error: the capacity
    of the ghost store is [int(0.5) = 0] and [NewLRU] refuses it. *)
Lemma C6_counterexample :
  0 < 1
  /\ invalid_ratio half = false
  /\ New2QParams amd64 1 half half
     = (None, Some "must provide a positive size"%string)
  /\ ~ (snd (New2QParams amd64 1 half half) = None).
Proof.
  split; [lia|]. split; [vm_compute; reflexivity|].
  split; [vm_compute; reflexivity|]. vm_compute. discriminate.
Qed.

(** C6, amended. [New2QParams] returns an error exactly when [size <= 0],
    or a ratio is below 0.0 or above 1.0, or the capacity of the ghost
    store [int(float64(size) * ghostRatio)] is not positive; in every
    other case it returns a cache and a nil error. An error comes with no
    cache. *)
Theorem C6_construction_errors (impl : float64 -> Z) (sz : Z) (rr gr : float64) :
  (snd (New2QParams impl sz rr gr) <> None
   <-> (sz <= 0 \/ invalid_ratio rr = true \/ invalid_ratio gr = true
        \/ int_of_float64 impl (float64_mul (float64_of_int sz) gr) <= 0))
  /\ (snd (New2QParams impl sz rr gr) = None
      <-> exists t, New2QParams impl sz rr gr = (Some t, None))
  /\ (snd (New2QParams impl sz rr gr) <> None
      <-> fst (New2QParams impl sz rr gr) = None).
Proof.
  unfold New2QParams, EasyLru.NewLRU, invalid_ratio.
  destruct (Z.leb_spec sz 0) as [Hle|Hpos].
  { cbn. repeat split; try discriminate; auto; try congruence.
    intros [t Ht]. discriminate. }
  destruct (float64_lt rr _ || float64_gt rr _).
  { cbn. repeat split; try discriminate; auto; try congruence.
    intros [t Ht]. discriminate. }
  destruct (float64_lt gr _ || float64_gt gr _).
  { cbn. repeat split; try discriminate; auto; try congruence.
    intros [t Ht]. discriminate. }
  destruct (Z.leb_spec (int_of_float64 impl (float64_mul (float64_of_int sz) gr)) 0)
    as [Hg|Hg].
  { cbn. repeat split; try discriminate; auto; try congruence.
    intros [t Ht]. discriminate. }
  cbn. repeat split; try discriminate; try congruence; eauto.
  intros [H|[H|[H|H]]]; try discriminate; lia.
Qed.

(* ===================================================================== *)
(** * Further properties of the bounded store of [easy_lru_cache] *)
(* ===================================================================== *)

Lemma lookup_index_of (k : Key) (l : list lruItem) :
  lookup k l = option_map (fun i => value_at i l) (index_of k l).
Proof.
  induction l as [|it l IH]; [reflexivity|]. cbn [lookup index_of].
  destruct (iface_eqb (key it) k); [reflexivity|].
  rewrite IH. destruct (index_of k l); reflexivity.
Qed.

Lemma Peek_lookup (l : EasyLru.lru) (k : Key) :
  EasyLru.Peek l k
  = (match lookup k (EasyLru.list_ l) with Some v => v | None => Nil end, false).
Proof.
  unfold EasyLru.Peek, EasyLru.cache. rewrite lookup_index_of.
  destruct (index_of k (EasyLru.list_ l)); reflexivity.
Qed.

Lemma Contains_lookup (l : EasyLru.lru) (k : Key) :
  EasyLru.Contains l k
  = match lookup k (EasyLru.list_ l) with Some _ => true | None => false end.
Proof.
  unfold EasyLru.Contains, EasyLru.cache. rewrite lookup_index_of.
  destruct (index_of k (EasyLru.list_ l)); reflexivity.
Qed.

Lemma lookup_Remove_other (k : Key) (i : nat) (l : list lruItem) (it : lruItem) :
  nth_error l i = Some it -> key it <> k ->
  lookup k (CList.Remove i l) = lookup k l.
Proof.
  revert i. induction l as [|x l IH]; intros i Hn Hne.
  - destruct i; discriminate.
  - destruct i as [|i]; cbn [nth_error] in Hn.
    + injection Hn as ->. rewrite Remove_O. cbn [lookup].
      destruct (iface_eqb (key it) k) eqn:E; [|reflexivity].
      apply iface_eqb_eq in E. contradiction.
    + rewrite Remove_S. cbn [lookup]. now rewrite (IH i Hn Hne).
Qed.

Lemma rev_removelast {A : Type} (l : list A) : rev (removelast l) = tl (rev l).
Proof.
  destruct l as [|x l _] using rev_ind; [reflexivity|].
  rewrite removelast_last, rev_app_distr. reflexivity.
Qed.

(** X1. [lru.Get] never returns, whatever the store and the key: with no
    writer on the store's mutex the deferred [Unlock] is fatal, with a
    writer the [RLock] waits. *)
Theorem lru_Get_never_returns (l : EasyLru.lru) (k : Key) :
  (forall r, EasyLru.Get l k <> Return r)
  /\ EasyLru.Get (EasyLru.with_lock l unlocked) k
     = Fatal "sync: Unlock of unlocked RWMutex"%string
  /\ EasyLru.Get (EasyLru.with_lock l write_held) k = Blocked.
Proof.
  rewrite !Get_never_returns. split; [|split; reflexivity].
  intros r. destruct (w (EasyLru.lock l)); discriminate.
Qed.

(** X2. [Put] then look up. On a store whose mutex is free, [Put(k, v)]
    returns a nil error; afterwards the store contains [k], [Peek(k)]
    yields the value [v], and [k] is the newest key of [Keys]. *)
Theorem lru_Put_then_lookup (l : EasyLru.lru) (k : Key) (v : Value) :
  EasyLru.lock l = unlocked ->
  exists l',
    EasyLru.Put l k v = Return (None, l')
    /\ EasyLru.Contains l' k = true
    /\ fst (EasyLru.Peek l' k) = v
    /\ (exists ks, EasyLru.Keys l' = ks ++ [k])
    /\ EasyLru.capacity l' = EasyLru.capacity l
    /\ EasyLru.lock l' = unlocked.
Proof.
  intros Hl. destruct (EasyLru.cache l k) as [i|] eqn:E.
  - destruct (index_of_Some _ _ _ E) as [it [Hn Hk]].
    eexists. split; [apply (Put_existing _ _ _ _ Hl E)|].
    rewrite Peek_lookup, Contains_lookup. unfold EasyLru.Keys.
    cbn [EasyLru.with_list EasyLru.list_ EasyLru.capacity EasyLru.lock].
    unfold CList.MoveToFront. rewrite Hn. cbn [assign_value lookup key value map rev fst].
    rewrite Hk, iface_eqb_refl. repeat split; eauto.
  - eexists. split; [apply (Put_new _ _ _ Hl E)|].
    rewrite Peek_lookup, Contains_lookup. unfold EasyLru.Keys.
    cbn [EasyLru.with_list EasyLru.list_ EasyLru.capacity EasyLru.lock lookup key value map rev fst].
    rewrite iface_eqb_refl. repeat split; eauto.
Qed.

(** The theorem on the empty store of capacity 2. *)
Lemma lru_Put_then_lookup_witness :
  exists l', EasyLru.Put store_2 (Int 7) (Str "x") = Return (None, l')
             /\ fst (EasyLru.Peek l' (Int 7)) = Str "x".
Proof.
  destruct (lru_Put_then_lookup store_2 (Int 7) (Str "x")) as (l' & HP & _ & Hv & _).
  - reflexivity.
  - exists l'. split; assumption.
Defined.

(** X3. [Put] of a key the store holds is [Remove] of the key followed by
    a push at the front: no other entry is evicted, even in a full store,
    and the length does not change. *)
Theorem lru_Put_held_replaces (l : EasyLru.lru) (k : Key) (v : Value) :
  EasyLru.lock l = unlocked ->
  EasyLru.Contains l k = true ->
  EasyLru.Put l k v
  = Return (None,
            EasyLru.with_list l
              ({| key := k; value := v |}
               :: EasyLru.list_ (snd (EasyLru.Remove l k))))
  /\ EasyLru.Keys (EasyLru.with_list l
                     ({| key := k; value := v |}
                      :: EasyLru.list_ (snd (EasyLru.Remove l k))))
     = EasyLru.Keys (snd (EasyLru.Remove l k)) ++ [k]
  /\ EasyLru.Len (EasyLru.with_list l
                    ({| key := k; value := v |}
                     :: EasyLru.list_ (snd (EasyLru.Remove l k))))
     = EasyLru.Len l.
Proof.
  intros Hl Hc. destruct (Contains_cache _ _ Hc) as [i Hi].
  destruct (index_of_Some _ _ _ Hi) as [it [Hn Hk]].
  pose proof (index_of_lt _ _ _ Hi) as Hlt.
  rewrite (Put_existing _ _ _ _ Hl Hi).
  unfold EasyLru.Remove, EasyLru.removeElement, EasyLru.Keys, EasyLru.Len, CList.Len.
  rewrite Hi. cbn [snd EasyLru.with_list EasyLru.list_].
  unfold CList.MoveToFront. rewrite Hn. cbn [assign_value map rev key List.length].
  rewrite Hk, Remove_length by assumption. repeat split. lia.
Qed.

(** The theorem on the full store [store_12] and its older key 1. *)
Lemma lru_Put_held_replaces_witness :
  exists l', EasyLru.Put store_12 (Int 1) (Str "z") = Return (None, l')
             /\ EasyLru.Keys l' = [Int 2; Int 1].
Proof.
  destruct (lru_Put_held_replaces store_12 (Int 1) (Str "z")) as (HP & Hk & _).
  - reflexivity.
  - reflexivity.
  - eexists. split; [exact HP|]. rewrite Hk. reflexivity.
Defined.

(** X4. [Put] of a key the store does not hold: the key becomes the
    newest of [Keys]; the others stay in order, without the oldest one
    when the store was at (or over) its capacity; the values of the
    entries that stay are untouched. *)
Theorem lru_Put_new_evicts_oldest (l : EasyLru.lru) (k : Key) (v : Value) :
  EasyLru.lock l = unlocked ->
  EasyLru.Contains l k = false ->
  exists l',
    EasyLru.Put l k v = Return (None, l')
    /\ EasyLru.Keys l'
       = (if EasyLru.Len l <? EasyLru.capacity l
          then EasyLru.Keys l else tl (EasyLru.Keys l)) ++ [k]
    /\ (forall k', In k' (EasyLru.Keys l') -> k' <> k ->
                   lookup k' (EasyLru.list_ l') = lookup k' (EasyLru.list_ l)).
Proof.
  intros Hl Hc. pose proof (Contains_cache_None _ _ Hc) as Hi.
  eexists. split; [apply (Put_new _ _ _ Hl Hi)|].
  unfold EasyLru.Keys, EasyLru.Len.
  cbn [EasyLru.with_list EasyLru.list_ map rev key].
  rewrite Z.geb_leb.
  destruct (Z.leb_spec (EasyLru.capacity l) (CList.Len (EasyLru.list_ l))) as [Hge|Hlt].
  - destruct (Z.ltb_spec (CList.Len (EasyLru.list_ l)) (EasyLru.capacity l)); [lia|].
    split.
    + rewrite <- map_rev, <- (map_rev key (EasyLru.list_ l)), rev_removelast.
      destruct (rev (EasyLru.list_ l)); reflexivity.
    + intros k' Hin Hne. cbn [lookup key].
      destruct (iface_eqb k k') eqn:E; [apply iface_eqb_eq in E; congruence|].
      apply in_app_or in Hin. destruct Hin as [Hin|[Heq|[]]]; [|congruence].
      rewrite <- in_rev in Hin.
      destruct (EasyLru.list_ l) as [|x0 items] eqn:El; [contradiction|].
      destruct (exists_last (l := x0 :: items)) as (items' & it & Hsplit); [discriminate|].
      rewrite Hsplit in *. rewrite removelast_last in *.
      clear - Hin Hc. revert Hin. induction items' as [|y ys IH]; [intros []|].
      cbn [map app lookup In]. intros [Hy|Hin].
      * subst k'. now rewrite iface_eqb_refl.
      * destruct (iface_eqb (key y) k'); [reflexivity|]. now apply IH.
  - destruct (Z.ltb_spec (CList.Len (EasyLru.list_ l)) (EasyLru.capacity l)); [|lia].
    split; [reflexivity|].
    intros k' Hin Hne. cbn [lookup key].
    destruct (iface_eqb k k') eqn:E; [apply iface_eqb_eq in E; congruence|reflexivity].
Qed.

(** The theorem on the full store [store_12] and the new key 3. *)
Lemma lru_Put_new_evicts_oldest_witness :
  exists l', EasyLru.Put store_12 (Int 3) (Str "c") = Return (None, l')
             /\ EasyLru.Keys l' = [Int 2; Int 3].
Proof.
  destruct (lru_Put_new_evicts_oldest store_12 (Int 3) (Str "c")) as (l' & HP & Hk & _).
  - reflexivity.
  - reflexivity.
  - exists l'. split; [exact HP|exact Hk].
Defined.

Lemma keys_of_Keys (l : EasyLru.lru) : EasyLru.Keys l = rev (keys_of l).
Proof. reflexivity. Qed.

Lemma NoDup_rev_iff {A : Type} (l : list A) : NoDup (rev l) <-> NoDup l.
Proof.
  split; intros H.
  - rewrite <- (rev_involutive l). now apply NoDup_rev.
  - now apply NoDup_rev.
Qed.

(** One call other than [Get] on a store within its capacity. *)
Lemma store_exec_spec (l : EasyLru.lru) (c : store_call) :
  EasyLru.lock l = unlocked -> 0 < EasyLru.capacity l ->
  EasyLru.Len l <= EasyLru.capacity l -> NoDup (keys_of l) ->
  is_store_get c = false ->
  exists l', store_exec l c = Return l'
    /\ EasyLru.lock l' = unlocked
    /\ EasyLru.capacity l' = EasyLru.capacity l
    /\ EasyLru.Len l' <= EasyLru.capacity l
    /\ NoDup (keys_of l').
Proof.
  intros Hl Hpos Hlen Hnd Hc.
  destruct c as [k|k v|k|k|k| | | | ]; cbn [store_exec]; try discriminate.
  - destruct (EasyLru.Contains l k) eqn:E.
    + destruct (Put_held l k v Hl E) as (l' & -> & Hl' & Hc' & Hlen' & _ & Hnd').
      cbn [bind]. exists l'. repeat split; auto; try lia.
    + destruct (Put_fresh l k v Hl E) as (l' & -> & Hl' & Hc' & _ & Hnd' & Hle & Hfull).
      cbn [bind]. exists l'. repeat split; auto.
      destruct (Z.lt_ge_cases (EasyLru.Len l) (EasyLru.capacity l)) as [Hlt|Hge]; [lia|].
      specialize (Hfull Hge ltac:(lia)). lia.
  - destruct (EasyLru.Peek l k). exists l. repeat split; auto.
  - exists l. repeat split; auto.
  - pose proof (Remove_fields l k) as [H1 H2].
    pose proof (Remove_Len_le l k) as H3.
    pose proof (Remove_keys_NoDup l k Hnd) as H4.
    destruct (EasyLru.Remove l k) as [ok l']. cbn [snd] in *.
    exists l'. repeat split; auto; try congruence; try lia.
  - exists l. repeat split; auto.
  - rewrite RemoveOldest_spec. eexists. split; [reflexivity|].
    unfold keys_of, EasyLru.Len, CList.Len in *.
    cbn [EasyLru.with_list EasyLru.list_ EasyLru.lock EasyLru.capacity].
    rewrite removelast_length. repeat split; auto; try lia.
    now apply removelast_keys_NoDup.
  - exists l. repeat split; auto.
  - eexists. split; [reflexivity|].
    unfold keys_of, EasyLru.Purge, EasyLru.Len, CList.Len.
    cbn [EasyLru.with_list EasyLru.list_ EasyLru.lock EasyLru.capacity map List.length].
    repeat split; auto; try lia. constructor.
Qed.

(** X5. The bounded store keeps its bound. On a store built by
    [NewLRU(N)], after any sequence of method calls that returns, the
    store holds at most [N] entries, [Keys] lists no key twice, and the
    capacity and the free mutex are as at construction; every sequence
    without [Get] returns. *)
Theorem lru_store_invariant (N : Z) (l : EasyLru.lru) (cs : list store_call) :
  EasyLru.NewLRU N = (Some l, None) ->
  (forall l', store_run l cs = Return l' ->
     EasyLru.Len l' <= N /\ NoDup (EasyLru.Keys l')
     /\ EasyLru.capacity l' = N /\ EasyLru.lock l' = unlocked)
  /\ (forallb (fun c => negb (is_store_get c)) cs = true ->
      exists l', store_run l cs = Return l').
Proof.
  intros HN. destruct (NewLRU_Some _ _ _ HN) as (Hpos & Hcap & Hempty & Hlock).
  assert (EasyLru.Len l <= EasyLru.capacity l) as Hlen.
  { unfold EasyLru.Len, CList.Len. rewrite Hempty. cbn. lia. }
  assert (NoDup (keys_of l)) as Hnd.
  { unfold keys_of. rewrite Hempty. constructor. }
  rewrite <- Hcap in Hpos. clear HN Hempty. subst N.
  revert l Hlock Hpos Hlen Hnd. induction cs as [|c cs IH]; intros l Hlock Hpos Hlen Hnd.
  - split.
    + intros l' H. injection H as <-. rewrite keys_of_Keys, NoDup_rev_iff.
      repeat split; auto.
    + intros _. exists l. reflexivity.
  - cbn [store_run forallb]. destruct (is_store_get c) eqn:Hc.
    + destruct c; try discriminate. cbn [store_exec].
      rewrite Get_never_returns, Hlock. cbn. split; [discriminate|discriminate].
    + destruct (store_exec_spec l c Hlock Hpos Hlen Hnd Hc)
        as (l1 & -> & Hl1 & Hc1 & Hlen1 & Hnd1).
      cbn [bind negb andb]. rewrite <- Hc1 in *.
      apply (IH l1); auto.
Qed.

(** The theorem on [NewLRU(2)] and five calls. *)
Lemma lru_store_invariant_witness :
  exists l',
    store_run store_2
      [SPut (Int 1) (Str "a"); SPut (Int 2) (Str "b"); SPut (Int 3) (Str "c");
       SRemove (Int 2); SPut (Int 3) (Str "d")] = Return l'
    /\ EasyLru.Len l' <= 2.
Proof.
  eexists. split; [vm_compute; reflexivity|].
  refine (proj1 (proj1 (lru_store_invariant 2 store_2
    [SPut (Int 1) (Str "a"); SPut (Int 2) (Str "b"); SPut (Int 3) (Str "c");
     SRemove (Int 2); SPut (Int 3) (Str "d")] _) _ _)).
  - reflexivity.
  - vm_compute; reflexivity.
Defined.

(** X6. [Remove] deletes the key and nothing else. In a store that holds
    no key twice, after [Remove(k)] the store does not contain [k], every
    other key keeps its value, and the length drops by one exactly when
    [k] was held; a key that is not held leaves the store as it is. *)
Theorem lru_Remove_deletes_only_key (l : EasyLru.lru) (k : Key) :
  NoDup (keys_of l) ->
  EasyLru.Contains (snd (EasyLru.Remove l k)) k = false
  /\ (forall k', k' <> k ->
        lookup k' (EasyLru.list_ (snd (EasyLru.Remove l k)))
        = lookup k' (EasyLru.list_ l))
  /\ EasyLru.Len (snd (EasyLru.Remove l k))
     = EasyLru.Len l - (if EasyLru.Contains l k then 1 else 0)
  /\ (EasyLru.Contains l k = false -> snd (EasyLru.Remove l k) = l).
Proof.
  intros Hnd. split; [|split; [|split]].
  - apply Contains_false. now apply Remove_deletes.
  - intros k' Hne. unfold EasyLru.Remove, EasyLru.cache. cbn [snd].
    destruct (index_of k (EasyLru.list_ l)) as [i|] eqn:E; [|reflexivity].
    destruct (index_of_Some _ _ _ E) as [it [Hn Hk]].
    cbn [EasyLru.removeElement EasyLru.with_list EasyLru.list_].
    apply (lookup_Remove_other k' i _ it Hn). congruence.
  - destruct (EasyLru.Contains l k) eqn:E.
    + now apply Remove_Len_held.
    + unfold EasyLru.Contains in E. unfold EasyLru.Remove. cbn [snd].
      destruct (EasyLru.cache l k); [discriminate|]. lia.
  - intros E. unfold EasyLru.Contains in E. unfold EasyLru.Remove. cbn [snd].
    destruct (EasyLru.cache l k); [discriminate|reflexivity].
Qed.

(** The theorem on [store_12] and key 1. *)
Lemma lru_Remove_deletes_only_key_witness :
  EasyLru.Contains (snd (EasyLru.Remove store_12 (Int 1))) (Int 1) = false
  /\ EasyLru.Len (snd (EasyLru.Remove store_12 (Int 1))) = 1.
Proof.
  destruct (lru_Remove_deletes_only_key store_12 (Int 1)) as (Hc & _ & Hlen & _).
  - cbn. repeat constructor; cbn [In]; intuition discriminate.
  - split; [exact Hc|]. rewrite Hlen. reflexivity.
Defined.

(** X7. [RemoveOldest] returns a nil error and drops the first key of
    [Keys] (the oldest one), leaving the others in order; on an empty
    store it changes nothing. *)
Theorem lru_RemoveOldest_drops_oldest (l : EasyLru.lru) :
  fst (EasyLru.RemoveOldest l) = None
  /\ EasyLru.Keys (snd (EasyLru.RemoveOldest l)) = tl (EasyLru.Keys l)
  /\ (forall k', In k' (tl (EasyLru.Keys l)) -> NoDup (keys_of l) ->
        lookup k' (EasyLru.list_ (snd (EasyLru.RemoveOldest l)))
        = lookup k' (EasyLru.list_ l))
  /\ EasyLru.capacity (snd (EasyLru.RemoveOldest l)) = EasyLru.capacity l
  /\ EasyLru.lock (snd (EasyLru.RemoveOldest l)) = EasyLru.lock l.
Proof.
  rewrite RemoveOldest_spec. cbn [fst snd]. unfold EasyLru.Keys.
  cbn [EasyLru.with_list EasyLru.list_ EasyLru.capacity EasyLru.lock].
  repeat split.
  - rewrite <- !map_rev, rev_removelast. destruct (rev (EasyLru.list_ l)); reflexivity.
  - intros k' Hin Hnd. unfold keys_of in Hnd.
    destruct (EasyLru.list_ l) as [|x0 items] using rev_ind; [reflexivity|].
    clear IHitems. rewrite removelast_last.
    rewrite <- map_rev, rev_app_distr in Hin. cbn [app rev map tl] in Hin.
    rewrite map_rev, <- in_rev in Hin.
    rewrite map_app in Hnd. cbn [map] in Hnd.
    apply NoDup_remove_2 in Hnd. rewrite app_nil_r in Hnd.
    clear - Hin. induction items as [|y ys IH]; [destruct Hin|].
    cbn [map app lookup In] in *. destruct Hin as [Hy|Hin].
    + subst k'. now rewrite iface_eqb_refl.
    + destruct (iface_eqb (key y) k'); [reflexivity|]. now apply IH.
Qed.

(* ===================================================================== *)
(** * The last [n] elements of a list *)
(* ===================================================================== *)

Lemma keep_length {A : Type} (n : nat) (l : list A) :
  List.length (keep n l) = Nat.min n (List.length l).
Proof. unfold keep. rewrite length_skipn. lia. Qed.

Lemma keep_all {A : Type} (n : nat) (l : list A) :
  (List.length l <= n)%nat -> keep n l = l.
Proof.
  intros H. unfold keep. replace (List.length l - n)%nat with 0%nat by lia. reflexivity.
Qed.

Lemma keep_map {A B : Type} (f : A -> B) (n : nat) (l : list A) :
  keep n (map f l) = map f (keep n l).
Proof. unfold keep. now rewrite length_map, skipn_map. Qed.

Lemma keep_incl {A : Type} (n : nat) (l : list A) (x : A) :
  In x (keep n l) -> In x l.
Proof.
  unfold keep. intros H. rewrite <- (firstn_skipn (List.length l - n) l).
  apply in_or_app. now right.
Qed.

Lemma skipn_S_tl {A : Type} (m : nat) (l : list A) : skipn (S m) l = tl (skipn m l).
Proof.
  revert l. induction m as [|m IH]; intros l.
  - destruct l; reflexivity.
  - destruct l as [|x l]; [reflexivity|]. cbn [skipn]. apply (IH l).
Qed.

(** One more element at the end: the window slides when it is full. *)
Lemma keep_snoc {A : Type} (n : nat) (l : list A) (x : A) :
  (0 < n)%nat ->
  keep n (l ++ [x])
  = (if (List.length l <? n)%nat then keep n l else tl (keep n l)) ++ [x].
Proof.
  intros Hn. unfold keep. rewrite length_app. cbn [List.length].
  destruct (Nat.ltb_spec (List.length l) n) as [Hlt|Hge].
  - replace (List.length l + 1 - n)%nat with 0%nat by lia.
    replace (List.length l - n)%nat with 0%nat by lia. reflexivity.
  - replace (List.length l + 1 - n)%nat with (S (List.length l - n)) by lia.
    rewrite skipn_app, skipn_S_tl.
    replace (S (List.length l - n) - List.length l)%nat with 0%nat by lia.
    reflexivity.
Qed.

Lemma removelast_rev {A : Type} (l : list A) : removelast (rev l) = rev (tl l).
Proof.
  destruct l as [|x l]; [reflexivity|]. cbn [rev tl]. apply removelast_last.
Qed.

(** [Put] of distinct keys, whatever their number: the store holds the
    pairs of the last [capacity] calls, the newest at the front. *)
Lemma putAll_keep (l : EasyLru.lru) (kvs : list (Key * Value)) :
  EasyLru.lock l = unlocked -> EasyLru.list_ l = [] ->
  0 < EasyLru.capacity l -> NoDup (map fst kvs) ->
  putAll l kvs
  = Return (EasyLru.with_list l
              (rev (map item_of (keep (Z.to_nat (EasyLru.capacity l)) kvs)))).
Proof.
  intros Hl He Hpos. induction kvs as [|[k v] kvs IH] using rev_ind; intros Hnd.
  - cbn. destruct l; cbn in *; subst; reflexivity.
  - rewrite map_app in Hnd. cbn [map fst] in Hnd.
    apply NoDup_remove in Hnd. rewrite app_nil_r in Hnd. destruct Hnd as [Hnd Hk].
    rewrite putAll_app, IH by assumption. cbn [bind putAll].
    rewrite Put_new.
    + cbn [bind EasyLru.with_list EasyLru.list_ EasyLru.capacity EasyLru.lock].
      unfold EasyLru.with_list. cbn [EasyLru.capacity EasyLru.lock EasyLru.list_].
      do 2 f_equal.
      rewrite keep_snoc by lia. unfold CList.Len.
      rewrite length_rev, length_map, keep_length.
      destruct (Nat.ltb_spec (List.length kvs) (Z.to_nat (EasyLru.capacity l))) as [Hlt|Hge].
      * destruct (Z.geb_spec (Z.of_nat (Nat.min (Z.to_nat (EasyLru.capacity l)) (List.length kvs)))
                    (EasyLru.capacity l)); [lia|].
        rewrite map_app, rev_app_distr. reflexivity.
      * destruct (Z.geb_spec (Z.of_nat (Nat.min (Z.to_nat (EasyLru.capacity l)) (List.length kvs)))
                    (EasyLru.capacity l)); [|lia].
        rewrite removelast_rev, map_app, rev_app_distr.
        destruct (keep (Z.to_nat (EasyLru.capacity l)) kvs); reflexivity.
    + exact Hl.
    + unfold EasyLru.cache. cbn [EasyLru.with_list EasyLru.list_].
      apply index_of_None. rewrite map_rev, map_key_item_of, <- in_rev.
      intros Hin. apply Hk. rewrite <- keep_map in Hin. eapply keep_incl. eassumption.
Qed.

(** X8. Any number of distinct keys. A store built by [NewLRU(N)] that
    receives pairs with distinct keys through [Put] holds exactly the
    last [N] of them (all of them when there are fewer): [Keys] lists
    their keys in the order of the calls and each key has the value it
    was put with. *)
Theorem lru_holds_last_N_keys (N : Z) (l : EasyLru.lru) (kvs : list (Key * Value)) :
  EasyLru.NewLRU N = (Some l, None) ->
  NoDup (map fst kvs) ->
  exists l',
    putAll l kvs = Return l'
    /\ EasyLru.Keys l' = keep (Z.to_nat N) (map fst kvs)
    /\ EasyLru.Len l' = Z.min N (Z.of_nat (List.length kvs))
    /\ (forall k v, In (k, v) (keep (Z.to_nat N) kvs) ->
                    lookup k (EasyLru.list_ l') = Some v).
Proof.
  intros HN Hnd. destruct (NewLRU_Some _ _ _ HN) as (Hpos & Hcap & Hempty & Hlock).
  eexists. split; [apply putAll_keep; (assumption || lia)|].
  rewrite Hcap. unfold EasyLru.Keys, EasyLru.Len, CList.Len.
  cbn [EasyLru.with_list EasyLru.list_].
  split; [|split].
  - rewrite map_rev, rev_involutive, map_key_item_of, keep_map. reflexivity.
  - rewrite length_rev, length_map, keep_length. lia.
  - intros k v Hin.
    assert (NoDup (map fst (keep (Z.to_nat N) kvs))) as Hnd'.
    { rewrite <- keep_map. unfold keep.
      rewrite <- (firstn_skipn (List.length (map fst kvs) - Z.to_nat N) (map fst kvs)) in Hnd.
      now apply NoDup_app_remove_l in Hnd. }
    revert Hin Hnd'. generalize (keep (Z.to_nat N) kvs) as p. clear.
    intros p. induction p as [|[k0 v0] p IH] using rev_ind; intros Hin Hnd; [destruct Hin|].
    rewrite map_app, rev_app_distr. cbn [map rev app lookup item_of key value fst snd].
    rewrite map_app in Hnd. cbn [map fst] in Hnd.
    apply NoDup_remove in Hnd. rewrite app_nil_r in Hnd. destruct Hnd as [Hnd Hk0].
    apply in_app_or in Hin. destruct Hin as [Hin|[Heq|[]]].
    + destruct (iface_eqb k0 k) eqn:E.
      * apply iface_eqb_eq in E. subst k0. exfalso. apply Hk0.
        change k with (fst (k, v)). now apply in_map.
      * now apply IH.
    + injection Heq as -> ->. now rewrite iface_eqb_refl.
Qed.

(** The theorem on [NewLRU(2)] and four pairs. *)
Lemma lru_holds_last_N_keys_witness :
  exists l',
    putAll store_2 [(Int 1, Str "a"); (Int 2, Str "b"); (Int 3, Str "c"); (Int 4, Str "d")]
    = Return l'
    /\ EasyLru.Keys l' = [Int 3; Int 4].
Proof.
  destruct (lru_holds_last_N_keys 2 store_2
              [(Int 1, Str "a"); (Int 2, Str "b"); (Int 3, Str "c"); (Int 4, Str "d")])
    as (l' & HP & Hk & _).
  - reflexivity.
  - cbn [map fst]. repeat constructor; cbn [In]; intuition discriminate.
  - exists l'. split; [exact HP|exact Hk].
Defined.

(* ===================================================================== *)
(** * Further properties of the [LRU] of [internal/lru] *)
(* ===================================================================== *)

Lemma as_LRU_as_lru (l : InternalLru.LRU) : as_LRU (as_lru l) = l.
Proof. destruct l; reflexivity. Qed.

Lemma as_lru_as_LRU (l : EasyLru.lru) : as_lru (as_LRU l) = l.
Proof. destruct l; reflexivity. Qed.

Lemma internal_Put_as_lru (l : InternalLru.LRU) (k : Key) (v : Value) :
  InternalLru.Put l k v
  = ('(e, l') <- EasyLru.Put (as_lru l) k v ;; Return (e, as_LRU l')).
Proof.
  destruct l as [c items [wr rc]].
  unfold InternalLru.Put, EasyLru.Put, as_lru, InternalLru.cache, EasyLru.cache, Lock.
  cbn [InternalLru.mu InternalLru.capacity InternalLru.list_
       EasyLru.lock EasyLru.capacity EasyLru.list_ w readerCount].
  destruct wr; [reflexivity|]. destruct rc as [|rc]; [|reflexivity].
  cbn [orb negb Nat.eqb bind InternalLru.with_mu EasyLru.with_lock
       InternalLru.mu InternalLru.capacity InternalLru.list_
       EasyLru.lock EasyLru.capacity EasyLru.list_].
  destruct (index_of k items) as [i|]; [reflexivity|].
  destruct (CList.Len items >=? c); [|reflexivity].
  destruct items as [|x items]; reflexivity.
Qed.

(** X9. The two packages agree on [Put] and on [NewLRU]. Seen through
    the renaming of the field [mu] to [lock], [Put] of [internal/lru]
    has the same outcome and leaves the same store as [Put] of
    [easy_lru_cache], and the two constructors build the same store or
    the same error. *)
Theorem internal_Put_agrees_with_lru_Put (N : Z) (l : InternalLru.LRU) (k : Key) (v : Value) :
  InternalLru.Put l k v
  = ('(e, l') <- EasyLru.Put (as_lru l) k v ;; Return (e, as_LRU l'))
  /\ InternalLru.NewLRU N
     = (option_map as_LRU (fst (EasyLru.NewLRU N)), snd (EasyLru.NewLRU N)).
Proof.
  split; [apply internal_Put_as_lru|].
  unfold InternalLru.NewLRU, EasyLru.NewLRU. destruct (N <=? 0); reflexivity.
Qed.

Lemma MoveBefore_front {A : Type} (i : nat) (l : list A) (x : A) :
  nth_error l i = Some x -> CList.MoveBefore i 0 l = x :: CList.Remove i l.
Proof.
  intros H. unfold CList.MoveBefore. destruct i as [|i].
  - destruct l as [|y l]; [discriminate|]. injection H as ->. reflexivity.
  - cbn [Nat.eqb Nat.ltb Nat.leb]. rewrite H. reflexivity.
Qed.

Lemma lookup_Some_index (k : Key) (l : list lruItem) (v : Value) :
  lookup k l = Some v ->
  exists i it, index_of k l = Some i /\ nth_error l i = Some it
               /\ key it = k /\ value it = v.
Proof.
  rewrite lookup_index_of. destruct (index_of k l) as [i|] eqn:E; [|discriminate].
  destruct (index_of_Some _ _ _ E) as [it [Hn Hk]].
  unfold value_at. cbn [option_map]. rewrite Hn. intros H. injection H as <-.
  exists i, it. auto.
Qed.

Lemma lookup_move_front (k' : Key) (i : nat) (l : list lruItem) (k : Key) (it : lruItem) :
  index_of k l = Some i -> nth_error l i = Some it -> key it = k ->
  lookup k' (it :: CList.Remove i l) = lookup k' l.
Proof.
  intros Hi Hn Hk. cbn [lookup].
  destruct (iface_eqb (key it) k') eqn:E.
  - apply iface_eqb_eq in E. rewrite lookup_index_of.
    replace k' with k by congruence. rewrite Hi. cbn [option_map].
    unfold value_at. now rewrite Hn.
  - apply (lookup_Remove_other k' i l it Hn). intros Heq.
    rewrite Heq, iface_eqb_refl in E. discriminate.
Qed.

(** [Get] of [internal/lru] on a key that is held, and on one that is not. *)
Lemma internal_Get_hit (l : InternalLru.LRU) (k : Key) (i : nat) (it : lruItem) :
  index_of k (InternalLru.list_ l) = Some i ->
  nth_error (InternalLru.list_ l) i = Some it ->
  InternalLru.Get l k
  = ((value it, None),
     InternalLru.with_list l (it :: CList.Remove i (InternalLru.list_ l))).
Proof.
  intros Hi Hn. unfold InternalLru.Get, InternalLru.cache. rewrite Hi.
  unfold value_at. rewrite Hn.
  destruct (InternalLru.list_ l) as [|y items] eqn:El; [destruct i; discriminate|].
  cbn [CList.Front]. now rewrite (MoveBefore_front i (y :: items) it Hn).
Qed.

Lemma internal_Get_miss (l : InternalLru.LRU) (k : Key) :
  index_of k (InternalLru.list_ l) = None ->
  InternalLru.Get l k = ((Nil, Some "not found in cache"%string), l).
Proof. intros Hi. unfold InternalLru.Get, InternalLru.cache. now rewrite Hi. Qed.

(** X10. [Get] of [internal/lru]. For a key that is not held it returns
    the nil value with the error "not found in cache" and leaves the
    store as it is. For a held key it returns the stored value with a nil
    error, makes the key the most recently used one, and changes neither
    the value of any key nor the number of entries. *)
Theorem internal_Get_hit_or_miss (l : InternalLru.LRU) (k : Key) :
  match lookup k (InternalLru.list_ l) with
  | None =>
      InternalLru.Get l k = ((Nil, Some "not found in cache"%string), l)
  | Some v =>
      exists l',
        InternalLru.Get l k = ((v, None), l')
        /\ option_map key (hd_error (InternalLru.list_ l')) = Some k
        /\ (forall k', lookup k' (InternalLru.list_ l') = lookup k' (InternalLru.list_ l))
        /\ List.length (InternalLru.list_ l') = List.length (InternalLru.list_ l)
        /\ InternalLru.capacity l' = InternalLru.capacity l
        /\ InternalLru.mu l' = InternalLru.mu l
  end.
Proof.
  destruct (lookup k (InternalLru.list_ l)) as [v|] eqn:E.
  - destruct (lookup_Some_index _ _ _ E) as (i & it & Hi & Hn & Hk & Hv).
    eexists. split; [rewrite (internal_Get_hit l k i it Hi Hn), Hv; reflexivity|].
    cbn [InternalLru.with_list InternalLru.list_ InternalLru.capacity InternalLru.mu
         hd_error option_map List.length].
    repeat split.
    + now rewrite Hk.
    + intros k'. apply (lookup_move_front k' i _ k it Hi Hn Hk).
    + rewrite Remove_length; [|apply nth_error_Some; congruence].
      assert (i < List.length (InternalLru.list_ l))%nat
        by (apply nth_error_Some; congruence). lia.
  - apply internal_Get_miss. rewrite lookup_index_of in E.
    destruct (index_of k (InternalLru.list_ l)); [discriminate|reflexivity].
Qed.

(** [Get] of the key at the front changes nothing. *)
Lemma internal_Get_front (l : InternalLru.LRU) (it : lruItem) (rest : list lruItem) :
  InternalLru.list_ l = it :: rest ->
  InternalLru.Get l (key it) = ((value it, None), l).
Proof.
  intros Hlist. rewrite (internal_Get_hit l (key it) 0%nat it).
  - rewrite Hlist, Remove_O. destruct l; cbn in *; subst; reflexivity.
  - rewrite Hlist. cbn [index_of]. now rewrite iface_eqb_refl.
  - now rewrite Hlist.
Qed.

(** X11. [Put] then [Get] in [internal/lru]. On a store whose mutex is
    free, [Put(k, v)] returns a nil error and a following [Get(k)]
    returns [v] with a nil error and leaves the store as [Put] left it. *)
Theorem internal_Put_then_Get (l : InternalLru.LRU) (k : Key) (v : Value) :
  InternalLru.mu l = unlocked ->
  exists l',
    InternalLru.Put l k v = Return (None, l')
    /\ InternalLru.Get l' k = ((v, None), l').
Proof.
  intros Hl. rewrite internal_Put_as_lru.
  assert (EasyLru.lock (as_lru l) = unlocked) as Hl' by exact Hl.
  destruct (EasyLru.cache (as_lru l) k) as [i|] eqn:E.
  - destruct (index_of_Some _ _ _ E) as [it [Hn Hk]].
    rewrite (Put_existing _ _ _ _ Hl' E). cbn [bind]. eexists. split; [reflexivity|].
    unfold CList.MoveToFront. rewrite Hn. cbn [assign_value].
    apply (internal_Get_front _ {| key := k; value := v |} (CList.Remove i (InternalLru.list_ l))).
    rewrite Hk. reflexivity.
  - rewrite (Put_new _ _ _ Hl' E). cbn [bind]. eexists. split; [reflexivity|].
    eapply (internal_Get_front _ {| key := k; value := v |}). reflexivity.
Qed.

(** The theorem on the empty store of capacity 2. *)
Lemma internal_Put_then_Get_witness :
  exists l',
    InternalLru.Put internal_store_2 (Int 7) (Str "x") = Return (None, l')
    /\ InternalLru.Get l' (Int 7) = ((Str "x", None), l').
Proof.
  apply (internal_Put_then_Get internal_store_2 (Int 7) (Str "x")). reflexivity.
Defined.

(** One call on a store of [internal/lru] within its capacity. *)
Lemma internal_exec_spec (l : InternalLru.LRU) (c : internal_call) :
  InternalLru.mu l = unlocked -> 0 < InternalLru.capacity l ->
  Z.of_nat (List.length (InternalLru.list_ l)) <= InternalLru.capacity l ->
  NoDup (map key (InternalLru.list_ l)) ->
  exists l', internal_exec l c = Return l'
    /\ InternalLru.mu l' = unlocked
    /\ InternalLru.capacity l' = InternalLru.capacity l
    /\ Z.of_nat (List.length (InternalLru.list_ l')) <= InternalLru.capacity l
    /\ NoDup (map key (InternalLru.list_ l')).
Proof.
  intros Hl Hpos Hlen Hnd. destruct c as [k|k v]; cbn [internal_exec].
  - destruct (index_of k (InternalLru.list_ l)) as [i|] eqn:E.
    + destruct (index_of_Some _ _ _ E) as [it [Hn Hk]].
      rewrite (internal_Get_hit l k i it E Hn).
      eexists. split; [reflexivity|].
      cbn [InternalLru.with_list InternalLru.list_ InternalLru.capacity InternalLru.mu
           map List.length].
      assert (i < List.length (InternalLru.list_ l))%nat
        by (apply nth_error_Some; congruence).
      rewrite Remove_length by assumption.
      repeat split; auto; try lia.
      constructor; [now apply (Remove_absent key i _ it)|now apply Remove_NoDup].
    + rewrite (internal_Get_miss l k E). exists l. repeat split; auto.
  - rewrite internal_Put_as_lru.
    assert (EasyLru.lock (as_lru l) = unlocked) as Hl' by exact Hl.
    destruct (EasyLru.Contains (as_lru l) k) eqn:Ec.
    + destruct (Put_held (as_lru l) k v Hl' Ec) as (l' & -> & Hl1 & Hc1 & Hlen1 & _ & Hnd1).
      cbn [bind]. exists (as_LRU l'). repeat split; auto;
        try (apply Hnd1; exact Hnd).
      unfold EasyLru.Len, CList.Len in Hlen1. cbn [as_LRU InternalLru.list_].
      rewrite Hlen1. exact Hlen.
    + destruct (Put_fresh (as_lru l) k v Hl' Ec) as (l' & -> & Hl1 & Hc1 & _ & Hnd1 & Hle & Hfull).
      cbn [bind]. exists (as_LRU l'). repeat split; auto;
        try (apply Hnd1; exact Hnd).
      unfold EasyLru.Len, CList.Len in *. cbn [as_LRU as_lru InternalLru.list_ EasyLru.list_
        EasyLru.capacity] in *.
      destruct (Z.lt_ge_cases (Z.of_nat (List.length (InternalLru.list_ l)))
                  (InternalLru.capacity l)) as [Hlt|Hge]; [lia|].
      specialize (Hfull Hge ltac:(lia)). lia.
Qed.

(** X12. The store of [internal/lru] keeps its bound and never fails to
    return. On a store built by [NewLRU(N)], every sequence of [Put] and
    [Get] calls returns; afterwards the store holds at most [N] entries,
    no key twice, and its capacity and free mutex are as at
    construction. *)
Theorem internal_store_invariant (N : Z) (l : InternalLru.LRU) (cs : list internal_call) :
  InternalLru.NewLRU N = (Some l, None) ->
  exists l',
    internal_run l cs = Return l'
    /\ Z.of_nat (List.length (InternalLru.list_ l')) <= N
    /\ NoDup (map key (InternalLru.list_ l'))
    /\ InternalLru.capacity l' = N
    /\ InternalLru.mu l' = unlocked.
Proof.
  unfold InternalLru.NewLRU. destruct (Z.leb_spec N 0) as [Hle|Hpos]; [discriminate|].
  intros Heq. injection Heq as <-.
  set (l0 := {| InternalLru.capacity := N; InternalLru.list_ := []; InternalLru.mu := unlocked |}).
  assert (InternalLru.mu l0 = unlocked) as Hl by reflexivity.
  assert (InternalLru.capacity l0 = N) as Hc by reflexivity.
  assert (Z.of_nat (List.length (InternalLru.list_ l0)) <= N) as Hlen by (cbn; lia).
  assert (NoDup (map key (InternalLru.list_ l0))) as Hnd by constructor.
  clearbody l0. revert l0 Hl Hc Hlen Hnd.
  induction cs as [|c cs IH]; intros l0 Hl Hc Hlen Hnd.
  - exists l0. repeat split; auto.
  - cbn [internal_run].
    destruct (internal_exec_spec l0 c Hl ltac:(lia) ltac:(lia) Hnd)
      as (l1 & -> & Hl1 & Hc1 & Hlen1 & Hnd1).
    cbn [bind]. apply IH; auto; lia.
Qed.

(** The theorem on [NewLRU(2)] and five calls. *)
Lemma internal_store_invariant_witness :
  exists l',
    internal_run internal_store_2
      [IPut (Int 1) (Str "a"); IPut (Int 2) (Str "b"); IGet (Int 1);
       IPut (Int 3) (Str "c"); IGet (Int 2)] = Return l'
    /\ Z.of_nat (List.length (InternalLru.list_ l')) <= 2.
Proof.
  destruct (internal_store_invariant 2 internal_store_2
              [IPut (Int 1) (Str "a"); IPut (Int 2) (Str "b"); IGet (Int 1);
               IPut (Int 3) (Str "c"); IGet (Int 2)])
    as (l' & Hrun & Hlen & _).
  - reflexivity.
  - exists l'. split; assumption.
Defined.

(* ===================================================================== *)
(** * Further properties of the 2Q engine *)
(* ===================================================================== *)

(** After a [Put] that returned, the store holds the key with the value. *)
Lemma Put_holds (l l' : EasyLru.lru) (k : Key) (v : Value) (e : error) :
  EasyLru.lock l = unlocked ->
  EasyLru.Put l k v = Return (e, l') ->
  EasyLru.Contains l' k = true /\ lookup k (EasyLru.list_ l') = Some v.
Proof.
  intros Hl HP. rewrite Contains_lookup.
  destruct (EasyLru.cache l k) as [i|] eqn:E.
  - destruct (index_of_Some _ _ _ E) as [it [Hn Hk]].
    rewrite (Put_existing _ _ _ _ Hl E) in HP. injection HP as <- <-.
    cbn [EasyLru.with_list EasyLru.list_]. unfold CList.MoveToFront. rewrite Hn.
    cbn [assign_value lookup key value]. now rewrite Hk, iface_eqb_refl.
  - rewrite (Put_new _ _ _ Hl E) in HP. injection HP as <- <-.
    cbn [EasyLru.with_list EasyLru.list_ lookup key value]. now rewrite iface_eqb_refl.
Qed.

(** A [Put] of a new key into a store that is not full loses nothing. *)
Lemma Put_fresh_grows (l l' : EasyLru.lru) (k : Key) (v : Value) (e : error) :
  EasyLru.lock l = unlocked -> EasyLru.Contains l k = false ->
  EasyLru.Len l < EasyLru.capacity l ->
  EasyLru.Put l k v = Return (e, l') ->
  EasyLru.Len l' = EasyLru.Len l + 1
  /\ (forall x, In x (keys_of l) -> In x (keys_of l')).
Proof.
  intros Hl Hc Hlt HP. pose proof (Contains_cache_None _ _ Hc) as Hi.
  rewrite (Put_new _ _ _ Hl Hi) in HP. injection HP as <- <-.
  unfold EasyLru.Len, CList.Len, keys_of in *.
  cbn [EasyLru.with_list EasyLru.list_].
  destruct (Z.geb_spec (Z.of_nat (List.length (EasyLru.list_ l))) (EasyLru.capacity l));
    [lia|].
  cbn [List.length map]. split; [lia|]. intros x Hx. now right.
Qed.

Lemma Remove_keys_keep (l : EasyLru.lru) (k x : Key) :
  In x (keys_of l) -> x <> k -> In x (keys_of (snd (EasyLru.Remove l k))).
Proof.
  unfold EasyLru.Remove, keys_of, EasyLru.cache. cbn [snd]. intros Hx Hne.
  destruct (index_of k (EasyLru.list_ l)) as [i|] eqn:E; [|assumption].
  destruct (index_of_Some _ _ _ E) as [it [Hn Hk]].
  cbn [EasyLru.removeElement EasyLru.with_list EasyLru.list_].
  apply (Remove_keeps key i _ it x Hn Hx). congruence.
Qed.

Lemma Len_nonneg (l : EasyLru.lru) : 0 <= EasyLru.Len l.
Proof. unfold EasyLru.Len, CList.Len. lia. Qed.

(** [ensureSpace] changes nothing under the budget and never removes more
    than one entry. *)
Lemma ensureSpace_counts (t : twoQueueCache) (hint : bool) :
  (engine_len t < size t -> ensureSpace t hint = (None, t))
  /\ engine_len t - 1 <= engine_len (snd (ensureSpace t hint)) <= engine_len t.
Proof.
  destruct t as [s rs rc fq gh lk]. unfold ensureSpace, engine_len.
  cbn [size recentSize recent frequent recentEvict lock].
  destruct (Z.ltb_spec (EasyLru.Len rc + EasyLru.Len fq) s) as [Hlt|Hge].
  { split; [reflexivity|]. cbn [snd recent frequent]. lia. }
  split; [lia|]. rewrite !RemoveOldest_spec.
  destruct ((EasyLru.Len rc >? 0) && _);
    cbn [snd with_recent with_frequent recent frequent];
    unfold EasyLru.Len, CList.Len; cbn [EasyLru.with_list EasyLru.list_];
    rewrite removelast_length; lia.
Qed.

(** What [Add] does on a state that satisfies the invariant. *)
Lemma Add_detail (sz : Z) (t : twoQueueCache) (k : Key) (v : Value) :
  Inv sz t ->
  exists t',
    Add t k v = Return (None, t')
    /\ (engine_holds t k = true ->
        EasyLru.Contains (frequent t') k = true
        /\ EasyLru.Contains (recent t') k = false
        /\ lookup k (EasyLru.list_ (frequent t')) = Some v
        /\ engine_len t' = engine_len t
        /\ (forall x, engine_holds t x = true -> engine_holds t' x = true))
    /\ (engine_holds t k = false ->
        EasyLru.Contains (recent t') k = true
        /\ EasyLru.Contains (frequent t') k = false
        /\ lookup k (EasyLru.list_ (recent t')) = Some v
        /\ engine_len t' = Z.min (engine_len t + 1) sz)
    /\ (forall x, engine_holds t' x = true -> x = k \/ engine_holds t x = true).
Proof.
  intros [Hs Hp Hcr Hcf Hl Hlr Hlf Hlg Hg Hnr Hnf Hd Hb].
  destruct t as [s rs rc fq gh lk]. unfold engine_holds, engine_len.
  cbn [size recentSize recent frequent recentEvict lock] in *.
  subst lk. unfold Add, locked. unfold_with. run_bind.
  destruct (EasyLru.Contains fq k) eqn:Ef.
  { (* the key is in [frequent] *)
    destruct (Put_held fq k v Hlf Ef) as (f' & HP & Hlf' & Hcf' & Hlen & Hkeys & Hnd).
    destruct (Put_holds _ _ _ _ _ Hlf HP) as [Hc' Hv'].
    rewrite HP. run_bind. eexists. split; [reflexivity|].
    cbn [size recentSize recent frequent recentEvict lock].
    assert (EasyLru.Contains rc k = false) as Er.
    { apply Contains_false. intros Hin. apply (Hd k Hin). now apply Contains_In. }
    split; [|split].
    - intros _. repeat split; auto; try lia.
      intros x Hx. apply orb_true_iff in Hx. apply orb_true_iff.
      destruct Hx as [Hx|Hx]; [left|now right].
      apply Contains_In. apply Hkeys. now apply Contains_In.
    - cbn [orb]. discriminate.
    - intros x Hx. right. apply orb_true_iff in Hx. apply orb_true_iff.
      destruct Hx as [Hx|Hx]; [left|now right].
      apply Contains_In. apply Hkeys. now apply Contains_In. }
  destruct (EasyLru.Contains rc k) eqn:Er.
  { (* the key is in [recent] *)
    pose proof (Remove_keys_sub rc k) as Hsub.
    pose proof (Remove_deletes rc k Hnr) as Hdel.
    pose proof (Remove_Len_held rc k Er) as Hlen1.
    pose proof (fun x => Remove_keys_keep rc k x) as Hkeep.
    destruct (EasyLru.Remove rc k) as [ok r1]. cbn [snd] in *.
    destruct (Put_fresh fq k v Hlf Ef) as (f' & HP & Hlf' & Hcf' & Hkeys & Hnd & Hlen & _).
    destruct (Put_holds _ _ _ _ _ Hlf HP) as [Hc' Hv'].
    assert (0 < EasyLru.Len rc) as Hrpos.
    { apply Contains_In in Er. unfold EasyLru.Len, CList.Len, keys_of in *.
      destruct (EasyLru.list_ rc); [destruct Er|cbn; lia]. }
    destruct (Put_fresh_grows _ _ _ _ _ Hlf Ef ltac:(lia) HP) as [Hlen' Hgrow].
    rewrite HP. run_bind. eexists. split; [reflexivity|].
    cbn [size recentSize recent frequent recentEvict lock].
    split; [|split].
    - intros _. repeat split; auto; try lia.
      + now apply Contains_false.
      + intros x Hx. apply orb_true_iff in Hx. apply orb_true_iff.
        destruct Hx as [Hx|Hx].
        * left. apply Contains_In. apply Hgrow. now apply Contains_In.
        * destruct (iface_eqb x k) eqn:Exk.
          -- apply iface_eqb_eq in Exk. subst x. now left.
          -- right. apply Contains_In. apply Hkeep; [now apply Contains_In|].
             intros ->. rewrite iface_eqb_refl in Exk. discriminate.
    - cbn [orb]. discriminate.
    - intros x Hx. apply orb_true_iff in Hx. destruct Hx as [Hx|Hx].
      + apply Contains_In in Hx. destruct (Hkeys x Hx) as [->|Hq]; [now left|].
        right. apply orb_true_iff. left. now apply Contains_In.
      + right. apply orb_true_iff. right. apply Contains_In, Hsub. now apply Contains_In. }
  rewrite (ghost_empty_Contains gh k Hg).
  (* a key held by no store *)
  match goal with
  | |- context [ensureSpace ?t0 false] =>
      destruct (ensureSpace_spec t0 false)
        as (r' & f' & He & Hlr' & Hcr' & Hlf' & Hcf' & Hsr & Hsf & Hnr' & Hnf' & Hler & Hlef & Hroom);
      pose proof (ensureSpace_counts t0 false) as [Hunder Hone]
  end.
  rewrite He in *. unfold engine_len in Hunder, Hone. unfold_with.
  cbn [snd] in Hone. unfold_with.
  assert (EasyLru.Contains r' k = false) as Er'.
  { apply Contains_false. intros Hin. apply Hsr in Hin.
    apply Contains_In in Hin. congruence. }
  assert (EasyLru.Contains f' k = false) as Ef'.
  { apply Contains_false. intros Hin. apply Hsf in Hin.
    apply Contains_In in Hin. congruence. }
  assert (EasyLru.lock r' = unlocked) as Hlr'' by congruence.
  destruct (Put_fresh r' k v Hlr'' Er') as (r'' & HP & Hlr3 & Hcr3 & Hkeys & Hnd & Hlen & Hfull).
  destruct (Put_holds _ _ _ _ _ Hlr'' HP) as [Hc' Hv'].
  rewrite HP. run_bind. eexists. split; [reflexivity|].
  cbn [size recentSize recent frequent recentEvict lock].
  split; [|split].
  - cbn [orb]. discriminate.
  - intros _. repeat split; auto.
    pose proof (Len_nonneg f') as Hf0. pose proof (Len_nonneg r') as Hr0.
    destruct (Hroom eq_refl ltac:(lia)) as [Hlt|[Hz Hsz]].
    + destruct (Put_fresh_grows _ _ _ _ _ Hlr'' Er' ltac:(lia) HP) as [Hlen' _].
      destruct (Z.lt_ge_cases (EasyLru.Len rc + EasyLru.Len fq) s) as [Hu|Hfullq].
      * specialize (Hunder Hu). injection Hunder as <- <-. lia.
      * lia.
    + rewrite Hfull by lia. lia.
  - intros x Hx. apply orb_true_iff in Hx. destruct Hx as [Hx|Hx].
    + right. apply orb_true_iff. left. apply Contains_In, Hsf. now apply Contains_In.
    + apply Contains_In in Hx. destruct (Hkeys x Hx) as [->|Hq]; [now left|].
      right. apply orb_true_iff. right. apply Contains_In, Hsr. exact Hq.
Qed.

Lemma reachable_Inv (impl : float64 -> Z) (sz : Z) (rr gr : float64)
    (t0 t : twoQueueCache) (cs : list call) :
  New2QParams impl sz rr gr = (Some t0, None) -> run t0 cs = Return t -> Inv sz t.
Proof.
  intros Hnew Hrun. pose proof (New2QParams_Inv _ _ _ _ _ _ Hnew) as HI.
  now destruct (run_Inv sz cs t0 t HI Hrun).
Qed.

(** X13. [Get] of the engine never returns, whatever the state of the
    cache and the key: its first step is [t.frequent.Get]. *)
Theorem twoQ_Get_never_returns (t : twoQueueCache) (k : Key) :
  (forall r, Get t k <> Return r)
  /\ Get t k = (if w (EasyLru.lock (frequent t)) then Blocked
                else Fatal "sync: Unlock of unlocked RWMutex"%string).
Proof.
  unfold Get. rewrite Get_never_returns.
  destruct (w (EasyLru.lock (frequent t))); split; try reflexivity;
    intros r; discriminate.
Qed.

(** X14. Where [Add] puts a key. On a cache built by [New2QParams], after
    any calls, [Add(k, v)] returns a nil error. A key held by neither
    [recent] nor [frequent] goes to [recent]; a key held by one of them
    ends in [frequent] (a second [Add] promotes it). Either way the key is
    then in exactly one store, with the value [v]. *)
Theorem twoQ_Add_placement (impl : float64 -> Z) (sz : Z) (rr gr : float64)
    (t0 t : twoQueueCache) (cs : list call) (k : Key) (v : Value) :
  New2QParams impl sz rr gr = (Some t0, None) ->
  run t0 cs = Return t ->
  exists t',
    Add t k v = Return (None, t')
    /\ (if engine_holds t k
        then EasyLru.Contains (frequent t') k = true
             /\ EasyLru.Contains (recent t') k = false
             /\ lookup k (EasyLru.list_ (frequent t')) = Some v
        else EasyLru.Contains (recent t') k = true
             /\ EasyLru.Contains (frequent t') k = false
             /\ lookup k (EasyLru.list_ (recent t')) = Some v)
    /\ stores_holding t' k = 1%nat.
Proof.
  intros Hnew Hrun. pose proof (reachable_Inv _ _ _ _ _ _ _ Hnew Hrun) as HI.
  destruct (Add_detail sz t k v HI) as (t' & HA & Hheld & Hnew' & _).
  destruct (Add_spec sz t k v HI) as (t'' & HA' & HI' & _).
  rewrite HA in HA'. injection HA' as <-.
  exists t'. split; [exact HA|].
  unfold stores_holding. rewrite (ghost_empty_Contains _ k (inv_ghost sz t' HI')).
  destruct (engine_holds t k).
  - destruct (Hheld eq_refl) as (H1 & H2 & H3 & _). rewrite H1, H2. auto.
  - destruct (Hnew' eq_refl) as (H1 & H2 & H3 & _). rewrite H1, H2. auto.
Qed.

(** The theorem on the cache of [New2QParams(2, 0.5, 0.5)] after
    [Add(1, a)]: a second [Add] of key 1. *)
Lemma twoQ_Add_placement_witness :
  exists t',
    Add (state_after cache_2_half [CAdd (Int 1) (Str "a")]) (Int 1) (Str "z")
    = Return (None, t')
    /\ EasyLru.Contains (frequent t') (Int 1) = true.
Proof.
  destruct (twoQ_Add_placement amd64 2 half half cache_2_half
              (state_after cache_2_half [CAdd (Int 1) (Str "a")])
              [CAdd (Int 1) (Str "a")] (Int 1) (Str "z"))
    as (t' & HA & Hplace & _).
  - vm_compute; reflexivity.
  - vm_compute; reflexivity.
  - exists t'. split; [exact HA|].
    change (engine_holds _ (Int 1)) with true in Hplace. now destruct Hplace.
Defined.

(** X15. What [Add] costs. On a cache built by [New2QParams(size, ...)],
    after any calls, [Add] of a key that is cached keeps the number of
    cached entries and loses no key; [Add] of a key that is not cached
    makes the number [min(n + 1, size)]: at most one entry is evicted;
    and no key other than the added one becomes cached. *)
Theorem twoQ_Add_length_and_keys (impl : float64 -> Z) (sz : Z) (rr gr : float64)
    (t0 t : twoQueueCache) (cs : list call) (k : Key) (v : Value) :
  New2QParams impl sz rr gr = (Some t0, None) ->
  run t0 cs = Return t ->
  exists t',
    Add t k v = Return (None, t')
    /\ engine_len t'
       = (if engine_holds t k then engine_len t else Z.min (engine_len t + 1) sz)
    /\ (forall x, engine_holds t' x = true -> x = k \/ engine_holds t x = true)
    /\ (engine_holds t k = true ->
        forall x, engine_holds t x = true -> engine_holds t' x = true).
Proof.
  intros Hnew Hrun. pose proof (reachable_Inv _ _ _ _ _ _ _ Hnew Hrun) as HI.
  destruct (Add_detail sz t k v HI) as (t' & HA & Hheld & Hnew' & Hsub).
  exists t'. split; [exact HA|]. split; [|split; [exact Hsub|]].
  - destruct (engine_holds t k).
    + now destruct (Hheld eq_refl) as (_ & _ & _ & H & _).
    + now destruct (Hnew' eq_refl) as (_ & _ & _ & H).
  - intros Hk. now destruct (Hheld Hk) as (_ & _ & _ & _ & H).
Qed.

(** The theorem on the cache of [New2QParams(2, 0.5, 0.5)] after two
    [Add]s: a third key. *)
Lemma twoQ_Add_length_and_keys_witness :
  exists t',
    Add (state_after cache_2_half [CAdd (Int 1) (Str "a"); CAdd (Int 2) (Str "b")]) (Int 3) (Str "c")
    = Return (None, t')
    /\ engine_len t' = 2.
Proof.
  destruct (twoQ_Add_length_and_keys amd64 2 half half cache_2_half
              (state_after cache_2_half [CAdd (Int 1) (Str "a"); CAdd (Int 2) (Str "b")])
              [CAdd (Int 1) (Str "a"); CAdd (Int 2) (Str "b")] (Int 3) (Str "c"))
    as (t' & HA & Hlen & _).
  - vm_compute; reflexivity.
  - vm_compute; reflexivity.
  - exists t'. split; [exact HA|]. rewrite Hlen. vm_compute; reflexivity.
Defined.

Lemma Remove_Contains_other (l : EasyLru.lru) (k x : Key) :
  x <> k ->
  EasyLru.Contains (snd (EasyLru.Remove l k)) x = EasyLru.Contains l x.
Proof.
  intros Hne. destruct (EasyLru.Contains l x) eqn:E.
  - apply Contains_In. apply Remove_keys_keep; [now apply Contains_In|assumption].
  - apply Contains_false. intros Hin. apply Remove_keys_sub in Hin.
    apply Contains_In in Hin. congruence.
Qed.

Lemma Remove_absent_same (l : EasyLru.lru) (k : Key) :
  EasyLru.Contains l k = false -> snd (EasyLru.Remove l k) = l.
Proof.
  unfold EasyLru.Contains, EasyLru.Remove. cbn [snd].
  destruct (EasyLru.cache l k); [discriminate|reflexivity].
Qed.

(** What [Remove] does on a state that satisfies the invariant. *)
Lemma Remove_detail (sz : Z) (t : twoQueueCache) (k : Key) :
  Inv sz t ->
  exists t',
    Remove t k = Return (tt, t')
    /\ engine_holds t' k = false
    /\ (forall x, x <> k -> engine_holds t' x = engine_holds t x)
    /\ engine_len t' = engine_len t - (if engine_holds t k then 1 else 0).
Proof.
  intros [Hs Hp Hcr Hcf Hl Hlr Hlf Hlg Hg Hnr Hnf Hd Hb].
  destruct t as [s rs rc fq gh lk]. unfold engine_holds, engine_len.
  cbn [size recentSize recent frequent recentEvict lock] in *.
  subst lk. unfold Remove, locked. unfold_with. run_bind.
  pose proof (Remove_deletes rc k Hnr) as Hdr.
  pose proof (Remove_deletes fq k Hnf) as Hdf.
  pose proof (fun x => Remove_Contains_other rc k x) as Hor.
  pose proof (fun x => Remove_Contains_other fq k x) as Hof.
  pose proof (Remove_not_ok rc k) as Hokr.
  pose proof (Remove_not_ok fq k) as Hokf.
  assert (EasyLru.Len (snd (EasyLru.Remove rc k)) + EasyLru.Len (snd (EasyLru.Remove fq k))
          = EasyLru.Len rc + EasyLru.Len fq
            - (if EasyLru.Contains fq k || EasyLru.Contains rc k then 1 else 0)) as Hlen.
  { destruct (EasyLru.Contains fq k) eqn:Ef; destruct (EasyLru.Contains rc k) eqn:Er; cbn [orb].
    - exfalso. apply Contains_In in Ef, Er. exact (Hd k Er Ef).
    - rewrite (Remove_Len_held fq k Ef), (Remove_absent_same rc k Er). lia.
    - rewrite (Remove_Len_held rc k Er), (Remove_absent_same fq k Ef). lia.
    - rewrite (Remove_absent_same rc k Er), (Remove_absent_same fq k Ef). lia. }
  destruct (EasyLru.Remove fq k) as [okf f1].
  destruct (EasyLru.Remove rc k) as [okr r1].
  destruct (EasyLru.Remove gh k) as [okg g1].
  cbn [fst snd] in *. subst okf okr. run_bind.
  eexists. split; [reflexivity|].
  cbn [size recentSize recent frequent recentEvict lock].
  split; [|split].
  - apply Contains_false in Hdr, Hdf. now rewrite Hdr, Hdf.
  - intros x Hne. now rewrite Hor, Hof.
  - exact Hlen.
Qed.

(** X16. [Remove] of the engine. On a cache built by [New2QParams], after
    any calls, [Remove(k)] returns; afterwards [k] is not cached, every
    other key is cached exactly when it was before, and the number of
    cached entries drops by one when [k] was cached and is unchanged
    otherwise. *)
Theorem twoQ_Remove_removes_only_key (impl : float64 -> Z) (sz : Z) (rr gr : float64)
    (t0 t : twoQueueCache) (cs : list call) (k : Key) :
  New2QParams impl sz rr gr = (Some t0, None) ->
  run t0 cs = Return t ->
  exists t',
    Remove t k = Return (tt, t')
    /\ engine_holds t' k = false
    /\ stores_holding t' k = 0%nat
    /\ (forall x, x <> k -> engine_holds t' x = engine_holds t x)
    /\ engine_len t' = engine_len t - (if engine_holds t k then 1 else 0).
Proof.
  intros Hnew Hrun. pose proof (reachable_Inv _ _ _ _ _ _ _ Hnew Hrun) as HI.
  destruct (Remove_detail sz t k HI) as (t' & HR & Hk & Hx & Hlen).
  destruct (Remove_spec sz t k HI) as (t'' & HR' & HI' & _).
  rewrite HR in HR'. injection HR' as <-.
  exists t'. repeat split; auto.
  unfold stores_holding. rewrite (ghost_empty_Contains _ k (inv_ghost sz t' HI')).
  unfold engine_holds in Hk. apply orb_false_iff in Hk. destruct Hk as [-> ->].
  reflexivity.
Qed.

(** The theorem on the cache of [New2QParams(2, 0.5, 0.5)] after two
    [Add]s of key 1: the key is in [frequent] and is removed. *)
Lemma twoQ_Remove_removes_only_key_witness :
  exists t',
    Remove (state_after cache_2_half [CAdd (Int 1) (Str "a"); CAdd (Int 1) (Str "b")])
      (Int 1) = Return (tt, t')
    /\ engine_len t' = 0.
Proof.
  destruct (twoQ_Remove_removes_only_key amd64 2 half half cache_2_half
              (state_after cache_2_half [CAdd (Int 1) (Str "a"); CAdd (Int 1) (Str "b")])
              [CAdd (Int 1) (Str "a"); CAdd (Int 1) (Str "b")] (Int 1))
    as (t' & HR & _ & _ & _ & Hlen).
  - vm_compute; reflexivity.
  - vm_compute; reflexivity.
  - exists t'. split; [exact HR|]. rewrite Hlen. vm_compute; reflexivity.
Defined.

(** X17. [Purge] of the engine. On a cache built by [New2QParams], after
    any calls, [Purge] returns; afterwards no key is cached, the number
    of cached entries is 0, [Keys] is empty, and [size] and [recentSize]
    are unchanged, so the cache can be filled again. *)
Theorem twoQ_Purge_empties (impl : float64 -> Z) (sz : Z) (rr gr : float64)
    (t0 t : twoQueueCache) (cs : list call) :
  New2QParams impl sz rr gr = (Some t0, None) ->
  run t0 cs = Return t ->
  exists t',
    Purge t = Return (tt, t')
    /\ engine_len t' = 0
    /\ (forall x, engine_holds t' x = false)
    /\ Keys t' = Return ([], t')
    /\ size t' = size t /\ recentSize t' = recentSize t
    /\ (forall k v, exists t'', Add t' k v = Return (None, t'')
                                /\ engine_len t'' = 1).
Proof.
  intros Hnew Hrun. pose proof (reachable_Inv _ _ _ _ _ _ _ Hnew Hrun) as HI.
  destruct (Purge_spec sz t HI) as (t' & HP & HI' & Hrs & Hr & Hf).
  assert (engine_len t' = 0) as Hlen.
  { unfold engine_len, EasyLru.Len, CList.Len. now rewrite Hr, Hf. }
  assert (forall x, engine_holds t' x = false) as Hnone.
  { intros x. unfold engine_holds, EasyLru.Contains, EasyLru.cache. now rewrite Hr, Hf. }
  exists t'. split; [exact HP|]. split; [exact Hlen|]. split; [exact Hnone|].
  split; [|split; [|split]].
  - rewrite (Keys_spec sz t' HI'). unfold EasyLru.Keys. now rewrite Hr, Hf.
  - rewrite (inv_size sz t' HI'), (inv_size sz t HI). reflexivity.
  - exact Hrs.
  - intros k v. destruct (Add_detail sz t' k v HI') as (t'' & HA & _ & Hnew' & _).
    exists t''. split; [exact HA|].
    destruct (Hnew' (Hnone k)) as (_ & _ & _ & Hl). rewrite Hl, Hlen.
    pose proof (inv_pos sz t' HI'). lia.
Qed.

(** The theorem on the cache of [New2QParams(2, 0.5, 0.5)] after the
    calls [calls_mixed]. *)
Lemma twoQ_Purge_empties_witness :
  exists t',
    Purge (state_after cache_2_half calls_mixed) = Return (tt, t')
    /\ engine_len t' = 0.
Proof.
  destruct (twoQ_Purge_empties amd64 2 half half cache_2_half
              (state_after cache_2_half calls_mixed) calls_mixed)
    as (t' & HP & Hlen & _).
  - vm_compute; reflexivity.
  - vm_compute; reflexivity.
  - exists t'. split; assumption.
Defined.

(** X18. [Keys] of the engine. On a cache built by [New2QParams], after
    any calls, [Keys] returns a list without repetition whose members
    are exactly the cached keys and whose length is what [Len] returns;
    the keys of [frequent] come first; the cache is left as it was. *)
Theorem twoQ_Keys_lists_cached_keys_once (impl : float64 -> Z) (sz : Z) (rr gr : float64)
    (t0 t : twoQueueCache) (cs : list call) :
  New2QParams impl sz rr gr = (Some t0, None) ->
  run t0 cs = Return t ->
  exists ks,
    Keys t = Return (ks, t)
    /\ ks = EasyLru.Keys (frequent t) ++ EasyLru.Keys (recent t)
    /\ NoDup ks
    /\ (forall x, In x ks <-> engine_holds t x = true)
    /\ Len t = Return (Z.of_nat (List.length ks), t).
Proof.
  intros Hnew Hrun. pose proof (reachable_Inv _ _ _ _ _ _ _ Hnew Hrun) as HI.
  eexists. split; [apply (Keys_spec sz t HI)|]. split; [reflexivity|].
  rewrite !keys_of_Keys. split; [|split].
  - apply NoDup_app.
    + apply NoDup_rev_iff, (inv_nodup_frequent sz t HI).
    + apply NoDup_rev_iff, (inv_nodup_recent sz t HI).
    + intros x Hf Hr. rewrite <- in_rev in Hf, Hr.
      exact (inv_disjoint sz t HI x Hr Hf).
  - intros x. unfold engine_holds. rewrite in_app_iff, <- !in_rev, orb_true_iff.
    now rewrite !Contains_In.
  - rewrite (Len_spec sz t HI). unfold EasyLru.Len, CList.Len, keys_of.
    rewrite length_app, !length_rev, !length_map. do 2 f_equal. lia.
Qed.

(** The theorem on the cache of [New2QParams(2, 0.5, 0.5)] after the
    calls [calls_promote]. *)
Lemma twoQ_Keys_lists_cached_keys_once_witness :
  exists ks,
    Keys (state_after cache_2_half calls_promote)
    = Return (ks, state_after cache_2_half calls_promote)
    /\ NoDup ks.
Proof.
  destruct (twoQ_Keys_lists_cached_keys_once amd64 2 half half cache_2_half
              (state_after cache_2_half calls_promote) calls_promote)
    as (ks & HK & _ & Hnd & _).
  - vm_compute; reflexivity.
  - vm_compute; reflexivity.
  - exists ks. split; assumption.
Defined.

(** X19. [Peek] of the engine never reports a hit. On a cache built by
    [New2QParams], after any calls, [Peek(k)] returns [ok = false] and
    leaves the cache as it was; the value it returns is the one [recent]
    stores for [k], and the nil value for every key that [recent] does
    not hold, also when [frequent] holds it. *)
Theorem twoQ_Peek_never_ok (impl : float64 -> Z) (sz : Z) (rr gr : float64)
    (t0 t : twoQueueCache) (cs : list call) (k : Key) :
  New2QParams impl sz rr gr = (Some t0, None) ->
  run t0 cs = Return t ->
  exists val,
    Peek t k = Return ((val, false), t)
    /\ val = match lookup k (EasyLru.list_ (recent t)) with
             | Some v => v
             | None => Nil
             end
    /\ (EasyLru.Contains (frequent t) k = true -> val = Nil).
Proof.
  intros Hnew Hrun. pose proof (reachable_Inv _ _ _ _ _ _ _ Hnew Hrun) as HI.
  eexists. split; [rewrite (Peek_spec sz t k HI), Peek_lookup; reflexivity|].
  split; [reflexivity|].
  intros Hf. assert (EasyLru.Contains (recent t) k = false) as Hr.
  { apply Contains_false. intros Hin. apply (inv_disjoint sz t HI k Hin).
    now apply Contains_In. }
  rewrite Contains_lookup in Hr.
  destruct (lookup k (EasyLru.list_ (recent t))); [discriminate|reflexivity].
Qed.

(** The theorem on the cache of [New2QParams(2, 0.5, 0.5)] after two
    [Add]s of key 1, which [frequent] then holds. *)
Lemma twoQ_Peek_never_ok_witness :
  Peek (state_after cache_2_half [CAdd (Int 1) (Str "a"); CAdd (Int 1) (Str "b")]) (Int 1)
  = Return ((Nil, false),
            state_after cache_2_half [CAdd (Int 1) (Str "a"); CAdd (Int 1) (Str "b")]).
Proof.
  destruct (twoQ_Peek_never_ok amd64 2 half half cache_2_half
              (state_after cache_2_half [CAdd (Int 1) (Str "a"); CAdd (Int 1) (Str "b")])
              [CAdd (Int 1) (Str "a"); CAdd (Int 1) (Str "b")] (Int 1))
    as (val & HP & _ & Hnil).
  - vm_compute; reflexivity.
  - vm_compute; reflexivity.
  - rewrite HP, Hnil; [reflexivity|vm_compute; reflexivity].
Defined.

Lemma run_app (t : twoQueueCache) (a b : list call) :
  run t (a ++ b) = (t' <- run t a ;; run t' b).
Proof.
  revert t. induction a as [|c a IH]; intros t; [reflexivity|].
  cbn [app run]. destruct (exec t c) as [t1| |]; cbn [bind]; auto.
Qed.

(** [Add] of a key that is not cached while [frequent] is empty. *)
Lemma Add_fresh_scan (sz : Z) (t : twoQueueCache) (k : Key) (v : Value) :
  Inv sz t -> EasyLru.list_ (frequent t) = [] ->
  EasyLru.Contains (recent t) k = false ->
  exists t',
    Add t k v = Return (None, t')
    /\ EasyLru.list_ (frequent t') = []
    /\ EasyLru.list_ (recent t')
       = {| key := k; value := v |}
         :: (if EasyLru.Len (recent t) >=? sz
             then removelast (EasyLru.list_ (recent t))
             else EasyLru.list_ (recent t)).
Proof.
  intros [Hs Hp Hcr Hcf Hl Hlr Hlf Hlg Hg Hnr Hnf Hd Hb] Hfe Er.
  destruct t as [s rs rc fq gh lk].
  cbn [size recentSize recent frequent recentEvict lock] in *.
  subst lk s. unfold Add, locked. unfold_with. run_bind.
  assert (EasyLru.Contains fq k = false) as Ef.
  { unfold EasyLru.Contains, EasyLru.cache. now rewrite Hfe. }
  rewrite Ef, Er, (ghost_empty_Contains gh k Hg).
  assert (EasyLru.Len fq = 0) as Hf0.
  { unfold EasyLru.Len, CList.Len. now rewrite Hfe. }
  pose proof (Contains_cache_None _ _ Er) as Hi.
  unfold ensureSpace. unfold_with. rewrite Hf0, Z.add_0_r in *.
  destruct (Z.ltb_spec (EasyLru.Len rc) sz) as [Hlt|Hge].
  { unfold_with. rewrite (Put_new _ _ _ Hlr Hi). run_bind.
    eexists. split; [reflexivity|]. unfold_with.
    split; [exact Hfe|]. cbn [EasyLru.with_list EasyLru.list_].
    rewrite Hcr. reflexivity. }
  rewrite !RemoveOldest_spec.
  destruct ((EasyLru.Len rc >? 0) && _) eqn:Econd; unfold_with.
  - assert (EasyLru.cache (EasyLru.with_list rc (removelast (EasyLru.list_ rc))) k = None)
      as Hi'.
    { unfold EasyLru.cache. cbn [EasyLru.with_list EasyLru.list_].
      apply index_of_None. intros Hin. apply removelast_keys_In in Hin.
      apply Contains_false in Er. contradiction. }
    rewrite (Put_new (EasyLru.with_list rc (removelast (EasyLru.list_ rc))) k v Hlr Hi').
    run_bind.
    eexists. split; [reflexivity|]. unfold_with.
    split; [exact Hfe|]. cbn [EasyLru.with_list EasyLru.list_ EasyLru.capacity].
    apply andb_prop in Econd. destruct Econd as [Hpos _]. apply Z.gtb_lt in Hpos.
    unfold EasyLru.Len, CList.Len in *. rewrite removelast_length, Hcr.
    destruct (Z.geb_spec (Z.of_nat (List.length (EasyLru.list_ rc) - 1)) sz); [lia|].
    destruct (Z.geb_spec (Z.of_nat (List.length (EasyLru.list_ rc))) sz); [|lia].
    reflexivity.
  - rewrite (Put_new _ _ _ Hlr Hi). run_bind.
    eexists. split; [reflexivity|]. unfold_with.
    cbn [EasyLru.with_list EasyLru.list_]. rewrite Hfe, Hcr. split; reflexivity.
Qed.

(** X21. A scan of distinct keys. On a cache just built by
    [New2QParams(size, ...)], the calls [Add] for pairs with distinct
    keys all return; [frequent] stays empty and the cache holds exactly
    the last [size] pairs (all of them when there are fewer), whatever
    [recentSize] is: [Keys] lists their keys in the order of the calls. *)
Theorem twoQ_scan_keeps_last_size_keys (impl : float64 -> Z) (sz : Z) (rr gr : float64)
    (t0 : twoQueueCache) (kvs : list (Key * Value)) :
  New2QParams impl sz rr gr = (Some t0, None) ->
  NoDup (map fst kvs) ->
  exists t,
    run t0 (adds kvs) = Return t
    /\ EasyLru.list_ (frequent t) = []
    /\ EasyLru.list_ (recent t) = rev (map item_of (keep (Z.to_nat sz) kvs))
    /\ Keys t = Return (keep (Z.to_nat sz) (map fst kvs), t).
Proof.
  intros Hnew Hnd. pose proof (New2QParams_Inv _ _ _ _ _ _ Hnew) as HI0.
  assert (EasyLru.list_ (frequent t0) = [] /\ EasyLru.list_ (recent t0) = []) as [Hf0 Hr0].
  { revert Hnew. unfold New2QParams, EasyLru.NewLRU.
    destruct (sz <=? 0); [discriminate|].
    destruct (float64_lt rr _ || float64_gt rr _); [discriminate|].
    destruct (float64_lt gr _ || float64_gt gr _); [discriminate|].
    destruct (int_of_float64 impl (float64_mul (float64_of_int sz) gr) <=? 0); [discriminate|].
    intros Heq. injection Heq as <-. split; reflexivity. }
  assert (exists t, run t0 (adds kvs) = Return t /\ Inv sz t
            /\ EasyLru.list_ (frequent t) = []
            /\ EasyLru.list_ (recent t) = rev (map item_of (keep (Z.to_nat sz) kvs)))
    as (t & Hrun & HI & Hf & Hr).
  { induction kvs as [|[k v] kvs IH] using rev_ind.
    - exists t0. split; [reflexivity|]. split; [exact HI0|]. split; [exact Hf0|].
      rewrite Hr0. reflexivity.
    - rewrite map_app in Hnd. cbn [map fst] in Hnd.
      apply NoDup_remove in Hnd. rewrite app_nil_r in Hnd. destruct Hnd as [Hnd Hk].
      destruct (IH Hnd) as (t & Hrun & HI & Hf & Hr).
      assert (EasyLru.Contains (recent t) k = false) as Er.
      { apply Contains_false. unfold keys_of. rewrite Hr, map_rev, map_key_item_of, <- in_rev.
        intros Hin. apply Hk. rewrite <- keep_map in Hin. eapply keep_incl. eassumption. }
      destruct (Add_fresh_scan sz t k v HI Hf Er) as (t' & HA & Hf' & Hr').
      destruct (Add_spec sz t k v HI) as (t'' & HA' & HI' & _).
      rewrite HA in HA'. injection HA' as <-.
      exists t'. split; [|split; [exact HI'|split; [exact Hf'|]]].
      + unfold adds. rewrite map_app, run_app. fold (adds kvs). rewrite Hrun.
        cbn [bind map run exec fst snd]. rewrite HA. reflexivity.
      + rewrite Hr'. pose proof (inv_pos sz t HI) as Hpos.
        rewrite keep_snoc by lia. unfold EasyLru.Len, CList.Len.
        rewrite Hr, length_rev, length_map, keep_length.
        destruct (Nat.ltb_spec (List.length kvs) (Z.to_nat sz)) as [Hlt|Hge].
        * destruct (Z.geb_spec (Z.of_nat (Nat.min (Z.to_nat sz) (List.length kvs))) sz); [lia|].
          rewrite map_app, rev_app_distr. reflexivity.
        * destruct (Z.geb_spec (Z.of_nat (Nat.min (Z.to_nat sz) (List.length kvs))) sz); [|lia].
          rewrite removelast_rev, map_app, rev_app_distr.
          destruct (keep (Z.to_nat sz) kvs); reflexivity. }
  exists t. split; [exact Hrun|]. split; [exact Hf|]. split; [exact Hr|].
  rewrite (Keys_spec sz t HI). unfold EasyLru.Keys.
  rewrite Hf, Hr, map_rev, rev_involutive, map_key_item_of, keep_map. reflexivity.
Qed.

(** The theorem on [New2QParams(2, 0.5, 0.5)] and three pairs. *)
Lemma twoQ_scan_keeps_last_size_keys_witness :
  exists t,
    run cache_2_half (adds [(Int 1, Str "a"); (Int 2, Str "b"); (Int 3, Str "c")])
    = Return t
    /\ Keys t = Return ([Int 2; Int 3], t).
Proof.
  destruct (twoQ_scan_keeps_last_size_keys amd64 2 half half cache_2_half
              [(Int 1, Str "a"); (Int 2, Str "b"); (Int 3, Str "c")])
    as (t & Hrun & _ & _ & HK).
  - vm_compute; reflexivity.
  - cbn [map fst]. repeat constructor; cbn [In]; intuition discriminate.
  - exists t. split; [exact Hrun|exact HK].
Defined.

Lemma float64_mul_nan (x : float64) : float64_mul x S754_nan = S754_nan.
Proof. destruct x; reflexivity. Qed.

(** X22. A NaN ratio is not rejected. Both comparisons of the ratio test
    are false for NaN, so [New2QParams] accepts a NaN [recentRatio]
    wherever it accepts 1.0 and builds the same cache, except that
    [recentSize] is whatever [int(NaN)] is on the platform; and a NaN
    [ghostRatio] never gives the error "invalid ghost ratio". *)
Theorem New2QParams_NaN_ratio_not_rejected (impl : float64 -> Z) (sz : Z) (gr : float64)
    (t : twoQueueCache) :
  New2QParams impl sz one gr = (Some t, None) ->
  New2QParams impl sz S754_nan gr
  = (Some {| size := size t; recentSize := impl S754_nan;
             recent := recent t; frequent := frequent t;
             recentEvict := recentEvict t; lock := lock t |}, None)
  /\ invalid_ratio S754_nan = false
  /\ snd (New2QParams impl sz one S754_nan) <> Some "invalid ghost ratio"%string
  /\ (snd (New2QParams impl sz one S754_nan) = None <-> 0 < impl S754_nan).
Proof.
  unfold New2QParams, EasyLru.NewLRU.
  destruct (Z.leb_spec sz 0) as [Hle|Hpos]; [discriminate|].
  change (float64_lt one (float64_const 0 1) || float64_gt one (float64_const 1 1))
    with false.
  change (float64_lt S754_nan (float64_const 0 1) || float64_gt S754_nan (float64_const 1 1))
    with false.
  cbn match.
  destruct (float64_lt gr _ || float64_gt gr _); [discriminate|].
  rewrite !float64_mul_nan.
  change (int_of_float64 impl S754_nan) with (impl S754_nan).
  destruct (int_of_float64 impl (float64_mul (float64_of_int sz) gr) <=? 0); [discriminate|].
  intros Heq. injection Heq as <-. cbn [size recentSize recent frequent recentEvict lock].
  split; [reflexivity|]. split; [reflexivity|].
  destruct (Z.leb_spec (impl S754_nan) 0) as [Hn|Hn]; cbn [snd]; split;
    try discriminate; split; intros H; try discriminate; try lia; reflexivity.
Qed.

(** The theorem on size 2 and ghost ratio 0.5. *)
Lemma New2QParams_NaN_ratio_not_rejected_witness :
  exists t, New2QParams amd64 2 S754_nan half = (Some t, None)
            /\ recentSize t = amd64 S754_nan.
Proof.
  destruct (New2QParams_NaN_ratio_not_rejected amd64 2 half
              {| size := 2; recentSize := 2; recent := recent cache_2_half;
                 frequent := frequent cache_2_half;
                 recentEvict := recentEvict cache_2_half; lock := unlocked |})
    as (Heq & _).
  - vm_compute; reflexivity.
  - eexists. split; [exact Heq|reflexivity].
Defined.

(** X23. [ensureSpace] evicts at most the oldest entry of one store. It
    always returns a nil error and never touches [recentEvict], the sizes
    or the lock; under the budget ([recent.Len() + frequent.Len() <
    size]) it changes nothing; otherwise either [recent] or [frequent]
    loses its oldest key and the other store is untouched. *)
Theorem ensureSpace_evicts_one_oldest (t : twoQueueCache) (hint : bool) :
  fst (ensureSpace t hint) = None
  /\ recentEvict (snd (ensureSpace t hint)) = recentEvict t
  /\ size (snd (ensureSpace t hint)) = size t
  /\ recentSize (snd (ensureSpace t hint)) = recentSize t
  /\ lock (snd (ensureSpace t hint)) = lock t
  /\ (if engine_len t <? size t
      then snd (ensureSpace t hint) = t
      else (EasyLru.Keys (recent (snd (ensureSpace t hint))) = tl (EasyLru.Keys (recent t))
            /\ frequent (snd (ensureSpace t hint)) = frequent t)
           \/ (EasyLru.Keys (frequent (snd (ensureSpace t hint)))
               = tl (EasyLru.Keys (frequent t))
               /\ recent (snd (ensureSpace t hint)) = recent t)).
Proof.
  destruct t as [s rs rc fq gh lk]. unfold ensureSpace, engine_len.
  cbn [size recentSize recent frequent recentEvict lock].
  destruct (EasyLru.Len rc + EasyLru.Len fq <? s).
  { repeat split. }
  rewrite !RemoveOldest_spec.
  destruct ((EasyLru.Len rc >? 0) && _);
    cbn [fst snd with_recent with_frequent size recentSize recent frequent recentEvict lock];
    repeat split; [left|right]; (split; [|reflexivity]);
    unfold EasyLru.Keys; cbn [EasyLru.with_list EasyLru.list_];
    rewrite <- !map_rev, rev_removelast;
    match goal with |- context [rev ?l] => destruct (rev l); reflexivity end.
Qed.

(** The program that uses [internal/lru]: [NewLRU(2)], three [Put]s, then
    [Get(10)], which finds the key evicted. *)
Lemma internal_client_run :
  exists l2,
    InternalLru.NewLRU 2 = (Some internal_store_2, None)
    /\ internal_puts internal_store_2 = Return l2
    /\ map key (InternalLru.list_ l2) = [Str "50"; Int 30]
    /\ InternalLru.Get l2 (Int 10)
       = ((Nil, Some "not found in cache"%string), l2).
Proof. eexists. repeat split; vm_compute; reflexivity. Qed.
